(** * Caches: FILO, FIFO, LRU and LFU replacement policies

    A shallow embedding of [CacheImpl.hpp] (namespace [CacheImpl], the
    version with the four classes FILOCache, FIFOCache, LFUCache and
    LRUCache) and the properties of its policy classes.

    Every policy class owns a [std::list] of entries and a
    [std::unordered_map] from keys to iterators into that list.  A
    [std::list] iterator is the address of a list node and stays valid until
    that very node is erased, so the embedding keeps three things apart:
    - the chain of a list: the addresses of its nodes, front to back;
    - the node store: what each live node holds;
    - the index map: key to node address.
    An operation whose behaviour the C++ standard leaves undefined (reading
    through a dangling iterator, [back()] of an empty list, overflow of the
    [int] access counter) has no result in the embedding. *)

From stdpp Require Import numbers option list gmap.

Open Scope Z_scope.

(** ** Outcomes of a call *)

(** [V get(const K&)] either returns a value, or throws
    [std::invalid_argument] (the KeyNotFound failure), or is undefined. *)
Inductive outcome (A S : Type) : Type :=
  | Return (a : A) (s : S)
  | Throw (s : S)
  | Undefined.
Arguments Return {A S} a s.
Arguments Throw {A S} s.
Arguments Undefined {A S}.

(** [int] is 32 bits; [++x] on [INT_MAX] is signed overflow. *)
Definition INT_MAX : Z := 2147483647.

Definition int_incr (x : Z) : option Z :=
  if decide (x < INT_MAX) then Some (x + 1) else None.

(** ** std::list with stable iterators *)

Module StdList.

(** A node address; an iterator is the address of the node it points to. *)
Abbreviation iterator := positive (only parsing).

Section list_ops.
Context {T : Type}.

(** The allocator hands out an address that no live node has; nothing
    else about the address is used below. *)
Definition alloc (h : gmap positive T) : iterator := fresh (dom h).

Definition emplace_front (x : T) (l : list positive) (h : gmap positive T)
  : list positive * gmap positive T :=
  let a := alloc h in (a :: l, <[a := x]> h).

Definition emplace_back (x : T) (l : list positive) (h : gmap positive T)
  : list positive * gmap positive T :=
  let a := alloc h in (l ++ [a], <[a := x]> h).

(** [l.erase(it)]: [it] must point into [l]. *)
Definition erase (it : iterator) (l : list positive) (h : gmap positive T)
  : option (list positive * gmap positive T) :=
  if decide (it ∈ l) then Some (filter (λ a, a ≠ it) l, delete it h)
  else None.

Definition pop_front (l : list positive) (h : gmap positive T)
  : option (list positive * gmap positive T) :=
  match l with
  | [] => None
  | a :: l' => Some (l', delete a h)
  end.

Definition pop_back (l : list positive) (h : gmap positive T)
  : option (list positive * gmap positive T) :=
  match last l with
  | None => None
  | Some a => Some (removelast l, delete a h)
  end.

(** [l.begin()] and [--l.end()] of a list that is not empty. *)
Definition begin (l : list positive) : option iterator := head l.
Definition prev_end (l : list positive) : option iterator := last l.

(** [*it] *)
Definition deref (it : iterator) (h : gmap positive T) : option T := h !! it.

Definition front (l : list positive) (h : gmap positive T) : option T :=
  a ← head l; deref a h.

Definition back (l : list positive) (h : gmap positive T) : option T :=
  a ← last l; deref a h.

(** The elements of a list, front to back. *)
Definition elements (l : list positive) (h : gmap positive T) : list T :=
  omap (λ a, h !! a) l.

End list_ops.

End StdList.

(** ** The classes with one list: FILOCache, FIFOCache, LRUCache *)

(** The three classes declare the same members: [m_capacity] (inherited from
    [Cache<K, V>]), [m_list] and [m_hashmap].  [m_nodes] is the memory of the
    nodes of [m_list]. *)
Record seq_cache (K V : Type) `{Countable K} : Type := SeqCache {
  m_capacity : nat;
  m_list : list positive;
  m_hashmap : gmap K positive;
  m_nodes : gmap positive (K * V);
}.
Arguments SeqCache {K V _ _} _ _ _ _.
Arguments m_capacity {K V _ _} _.
Arguments m_list {K V _ _} _.
Arguments m_hashmap {K V _ _} _.
Arguments m_nodes {K V _ _} _.

Section seq_common.
Context {K V : Type} `{Countable K}.
Implicit Types (c : seq_cache K V) (key : K) (value : V).

(** [explicit XCache(std::size_t capacity) : Cache<K, V>(capacity) {}] *)
Definition seq_new (capacity : nat) : seq_cache K V :=
  SeqCache capacity [] ∅ ∅.

(** [void setCapacity(size_t capacity) { m_capacity = capacity; }] *)
Definition seq_setCapacity (capacity : nat) c : seq_cache K V :=
  SeqCache capacity (m_list c) (m_hashmap c) (m_nodes c).

(** [m_list.clear(); m_hashmap.clear();] *)
Definition seq_clear c : seq_cache K V :=
  SeqCache (m_capacity c) [] ∅ ∅.

(** The entries in list order, and the number of stored keys. *)
Definition seq_entries c : list (K * V) :=
  StdList.elements (m_list c) (m_nodes c).

Definition seq_size c : nat := size (m_hashmap c).

End seq_common.

Module FILOCache.
Section methods.
Context {K V : Type} `{Countable K}.
Implicit Types (c : seq_cache K V) (key : K) (value : V).

Definition get key c : outcome V (seq_cache K V) :=
  match m_hashmap c !! key with
  | None => Throw c
  | Some iter =>
      match StdList.deref iter (m_nodes c) with
      | Some (_, v) => Return v c
      | None => Undefined
      end
  end.

Definition put key value c : option (seq_cache K V) :=
  if decide (m_capacity c = 0%nat) then Some c
  else
    match m_hashmap c !! key with
    | None =>
        c1 ← (if decide (size (m_hashmap c) = m_capacity c) then
                e ← StdList.back (m_list c) (m_nodes c);
                '(l, h) ← StdList.pop_back (m_list c) (m_nodes c);
                Some (SeqCache (m_capacity c) l
                        (delete e.1 (m_hashmap c)) h)
              else Some c);
        let '(l, h) :=
          StdList.emplace_back (key, value) (m_list c1) (m_nodes c1) in
        it ← StdList.prev_end l;
        Some (SeqCache (m_capacity c1) l (<[key := it]> (m_hashmap c1)) h)
    | Some iter =>
        e ← StdList.deref iter (m_nodes c);
        Some (SeqCache (m_capacity c) (m_list c) (m_hashmap c)
                (<[iter := (e.1, value)]> (m_nodes c)))
    end.

Definition clear c : seq_cache K V := seq_clear c.
End methods.
End FILOCache.

Module FIFOCache.
Section methods.
Context {K V : Type} `{Countable K}.
Implicit Types (c : seq_cache K V) (key : K) (value : V).

Definition get key c : outcome V (seq_cache K V) :=
  match m_hashmap c !! key with
  | None => Throw c
  | Some iter =>
      match StdList.deref iter (m_nodes c) with
      | Some (_, v) => Return v c
      | None => Undefined
      end
  end.

Definition put key value c : option (seq_cache K V) :=
  if decide (m_capacity c = 0%nat) then Some c
  else
    match m_hashmap c !! key with
    | None =>
        c1 ← (if decide (size (m_hashmap c) = m_capacity c) then
                e ← StdList.front (m_list c) (m_nodes c);
                '(l, h) ← StdList.pop_front (m_list c) (m_nodes c);
                Some (SeqCache (m_capacity c) l
                        (delete e.1 (m_hashmap c)) h)
              else Some c);
        let '(l, h) :=
          StdList.emplace_back (key, value) (m_list c1) (m_nodes c1) in
        it ← StdList.prev_end l;
        Some (SeqCache (m_capacity c1) l (<[key := it]> (m_hashmap c1)) h)
    | Some iter =>
        e ← StdList.deref iter (m_nodes c);
        Some (SeqCache (m_capacity c) (m_list c) (m_hashmap c)
                (<[iter := (e.1, value)]> (m_nodes c)))
    end.

Definition clear c : seq_cache K V := seq_clear c.
End methods.
End FIFOCache.

Module LRUCache.
Section methods.
Context {K V : Type} `{Countable K}.
Implicit Types (c : seq_cache K V) (key : K) (value : V).

Definition get key c : outcome V (seq_cache K V) :=
  match m_hashmap c !! key with
  | None => Throw c
  | Some iter =>
      let r :=
        e ← StdList.deref iter (m_nodes c);
        let '(l1, h1) :=
          StdList.emplace_front (key, e.2) (m_list c) (m_nodes c) in
        '(l2, h2) ← StdList.erase iter l1 h1;
        b ← StdList.begin l2;
        r ← StdList.deref b h2;
        Some (r.2, SeqCache (m_capacity c) l2 (<[key := b]> (m_hashmap c)) h2)
      in
      match r with
      | Some (v, c') => Return v c'
      | None => Undefined
      end
  end.

Definition put key value c : option (seq_cache K V) :=
  if decide (m_capacity c = 0%nat) then Some c
  else
    match m_hashmap c !! key with
    | None =>
        c1 ← (if decide (size (m_hashmap c) = m_capacity c) then
                e ← StdList.back (m_list c) (m_nodes c);
                '(l, h) ← StdList.pop_back (m_list c) (m_nodes c);
                Some (SeqCache (m_capacity c) l
                        (delete e.1 (m_hashmap c)) h)
              else Some c);
        let '(l, h) :=
          StdList.emplace_front (key, value) (m_list c1) (m_nodes c1) in
        b ← StdList.begin l;
        Some (SeqCache (m_capacity c1) l (<[key := b]> (m_hashmap c1)) h)
    | Some iter =>
        '(l1, h1) ← StdList.erase iter (m_list c) (m_nodes c);
        let '(l2, h2) := StdList.emplace_front (key, value) l1 h1 in
        b ← StdList.begin l2;
        Some (SeqCache (m_capacity c) l2 (<[key := b]> (m_hashmap c)) h2)
    end.

Definition clear c : seq_cache K V := seq_clear c.
End methods.
End LRUCache.


(** ** LFUCache *)

Module LFUCache.

(** [struct Node { K m_key; V m_value; int m_freq; }] *)
Record Node (K V : Type) : Type := mkNode {
  m_key : K;
  m_value : V;
  m_freq : Z;
}.
Arguments mkNode {K V} _ _ _.
Arguments m_key {K V} _.
Arguments m_value {K V} _.
Arguments m_freq {K V} _.

(** The members of the class; [m_nodes] is the memory of the nodes of all
    the lists held by [m_freqHashmap]. *)
Record t (K V : Type) `{Countable K} : Type := LFU {
  m_capacity : nat;
  m_minimalFreq : Z;
  m_hashmap : gmap K positive;
  m_freqHashmap : gmap Z (list positive);
  m_nodes : gmap positive (Node K V);
}.
Arguments LFU {K V _ _} _ _ _ _ _.
Arguments m_capacity {K V _ _} _.
Arguments m_minimalFreq {K V _ _} _.
Arguments m_hashmap {K V _ _} _.
Arguments m_freqHashmap {K V _ _} _.
Arguments m_nodes {K V _ _} _.

(** [m_freqHashmap[f]]: [operator[]] yields the list stored under [f], an
    empty one when there is none.  Every use below either writes the list
    back under [f] or erases [f], or is undefined on an empty list. *)
Definition bucket (f : Z) (fm : gmap Z (list positive)) : list positive :=
  default [] (fm !! f).

Section methods.
Context {K V : Type} `{Countable K}.
Implicit Types (c : t K V) (key : K) (value : V).

(** [explicit LFUCache(std::size_t capacity)
       : Cache<K, V>(capacity), m_minimalFreq(0) {}] *)
Definition new (capacity : nat) : t K V := LFU capacity 0 ∅ ∅ ∅.

Definition setCapacity (capacity : nat) c : t K V :=
  LFU capacity (m_minimalFreq c) (m_hashmap c) (m_freqHashmap c) (m_nodes c).

Definition get key c : outcome V (t K V) :=
  match m_hashmap c !! key with
  | None => Throw c
  | Some iter_in_list =>
      let r :=
        n ← StdList.deref iter_in_list (m_nodes c);
        let value := m_value n in
        let freq := m_freq n in
        (* m_freqHashmap[freq].erase(iter_in_list); *)
        '(l1, h1) ← StdList.erase iter_in_list
                      (bucket freq (m_freqHashmap c)) (m_nodes c);
        let fm1 := <[freq := l1]> (m_freqHashmap c) in
        (* if (m_freqHashmap[freq].empty()) { erase(freq); ... } *)
        '(fm2, mf2) ←
          (if decide (bucket freq fm1 = []) then
             mf ← (if decide (m_minimalFreq c = freq)
                   then int_incr (m_minimalFreq c)
                   else Some (m_minimalFreq c));
             Some (delete freq fm1, mf)
           else Some (fm1, m_minimalFreq c));
        (* ++freq; *)
        freq' ← int_incr freq;
        (* m_freqHashmap[freq].emplace_front(Node(key, value, freq)); *)
        let '(l3, h3) :=
          StdList.emplace_front (mkNode key value freq')
            (bucket freq' fm2) h1 in
        let fm3 := <[freq' := l3]> fm2 in
        (* iter->second = m_freqHashmap[freq].begin(); *)
        b ← StdList.begin (bucket freq' fm3);
        Some (value, LFU (m_capacity c) mf2 (<[key := b]> (m_hashmap c)) fm3 h3)
      in
      match r with
      | Some (v, c') => Return v c'
      | None => Undefined
      end
  end.

Definition put key value c : option (t K V) :=
  if decide (m_capacity c = 0%nat) then Some c
  else
    match m_hashmap c !! key with
    | None =>
        (* Delete the least frequently used item in both hashmaps *)
        c1 ← (if decide (size (m_hashmap c) = m_capacity c) then
                let mf := m_minimalFreq c in
                iter_to_lfu_item ← StdList.back (bucket mf (m_freqHashmap c))
                             (m_nodes c);
                let hm := delete (m_key iter_to_lfu_item) (m_hashmap c) in
                '(l1, h1) ← StdList.pop_back
                              (bucket mf (m_freqHashmap c)) (m_nodes c);
                let fm1 := <[mf := l1]> (m_freqHashmap c) in
                let fm2 := if decide (bucket mf fm1 = [])
                           then delete mf fm1 else fm1 in
                Some (LFU (m_capacity c) mf hm fm2 h1)
              else Some c);
        (* m_minimalFreq = 1; *)
        let mf := 1 in
        let '(l, h) :=
          StdList.emplace_front (mkNode key value mf)
            (bucket mf (m_freqHashmap c1)) (m_nodes c1) in
        let fm := <[mf := l]> (m_freqHashmap c1) in
        b ← StdList.begin (bucket mf fm);
        Some (LFU (m_capacity c1) mf (<[key := b]> (m_hashmap c1)) fm h)
    | Some iter_in_list =>
        n ← StdList.deref iter_in_list (m_nodes c);
        let freq := m_freq n in
        '(l1, h1) ← StdList.erase iter_in_list
                      (bucket freq (m_freqHashmap c)) (m_nodes c);
        let fm1 := <[freq := l1]> (m_freqHashmap c) in
        '(fm2, mf2) ←
          (if decide (bucket freq fm1 = []) then
             mf ← (if decide (m_minimalFreq c = freq)
                   then int_incr (m_minimalFreq c)
                   else Some (m_minimalFreq c));
             Some (delete freq fm1, mf)
           else Some (fm1, m_minimalFreq c));
        freq' ← int_incr freq;
        let '(l3, h3) :=
          StdList.emplace_front (mkNode key value freq')
            (bucket freq' fm2) h1 in
        let fm3 := <[freq' := l3]> fm2 in
        b ← StdList.begin (bucket freq' fm3);
        Some (LFU (m_capacity c) mf2 (<[key := b]> (m_hashmap c)) fm3 h3)
    end.

(** [m_minimalFreq = 0; m_hashmap.clear(); m_freqHashmap.clear();] *)
Definition clear c : t K V := LFU (m_capacity c) 0 ∅ ∅ ∅.

Definition size c : nat := base.size (m_hashmap c).

(** The entries of the bucket of frequency [f], front to back. *)
Definition bucket_entries (f : Z) c : list (Node K V) :=
  StdList.elements (bucket f (m_freqHashmap c)) (m_nodes c).

End methods.
End LFUCache.

(** ** The Cache interface *)

(** [Cache<K, V>] is the abstract base of the four classes; a cache handled
    through it is one of the four, and a virtual call goes to the method of
    its class. *)
Inductive cache (K V : Type) `{Countable K} : Type :=
  | FILO (c : seq_cache K V)
  | FIFO (c : seq_cache K V)
  | LRU (c : seq_cache K V)
  | LFU (c : LFUCache.t K V).
Arguments FILO {K V _ _} c.
Arguments FIFO {K V _ _} c.
Arguments LRU {K V _ _} c.
Arguments LFU {K V _ _} c.

Section interface.
Context {K V : Type} `{Countable K}.
Implicit Types (c : cache K V) (key : K) (value : V).

Definition getCapacity c : nat :=
  match c with
  | FILO s | FIFO s | LRU s => m_capacity s
  | LFU s => LFUCache.m_capacity s
  end.

Definition setCapacity (capacity : nat) c : cache K V :=
  match c with
  | FILO s => FILO (seq_setCapacity capacity s)
  | FIFO s => FIFO (seq_setCapacity capacity s)
  | LRU s => LRU (seq_setCapacity capacity s)
  | LFU s => LFU (LFUCache.setCapacity capacity s)
  end.

Definition lift_outcome {S S' : Type} (f : S → S') (o : outcome V S)
  : outcome V S' :=
  match o with
  | Return v s => Return v (f s)
  | Throw s => Throw (f s)
  | Undefined => Undefined
  end.

Definition get key c : outcome V (cache K V) :=
  match c with
  | FILO s => lift_outcome FILO (FILOCache.get key s)
  | FIFO s => lift_outcome FIFO (FIFOCache.get key s)
  | LRU s => lift_outcome LRU (LRUCache.get key s)
  | LFU s => lift_outcome LFU (LFUCache.get key s)
  end.

Definition put key value c : option (cache K V) :=
  match c with
  | FILO s => FILO <$> FILOCache.put key value s
  | FIFO s => FIFO <$> FIFOCache.put key value s
  | LRU s => LRU <$> LRUCache.put key value s
  | LFU s => LFU <$> LFUCache.put key value s
  end.

Definition clear c : cache K V :=
  match c with
  | FILO s => FILO (FILOCache.clear s)
  | FIFO s => FIFO (FIFOCache.clear s)
  | LRU s => LRU (LRUCache.clear s)
  | LFU s => LFU (LFUCache.clear s)
  end.

(** The number of stored keys, [m_hashmap.size()]. *)
Definition cache_size c : nat :=
  match c with
  | FILO s | FIFO s | LRU s => seq_size s
  | LFU s => LFUCache.size s
  end.

(** ** Runs of calls *)

Inductive call : Type :=
  | Get (key : K)
  | Put (key : K) (value : V)
  | Clear
  | SetCapacity (capacity : nat).

(** What the caller sees of a call: the value returned by [get], the
    exception thrown by [get], or nothing. *)
Inductive seen : Type :=
  | Value (v : V)
  | KeyNotFound
  | Done.

Definition step (x : call) c : option (seen * cache K V) :=
  match x with
  | Get key =>
      match get key c with
      | Return v c' => Some (Value v, c')
      | Throw c' => Some (KeyNotFound, c')
      | Undefined => None
      end
  | Put key value => c' ← put key value c; Some (Done, c')
  | Clear => Some (Done, clear c)
  | SetCapacity n => Some (Done, setCapacity n c)
  end.

Fixpoint run (xs : list call) c : option (list seen * cache K V) :=
  match xs with
  | [] => Some ([], c)
  | x :: xs' =>
      '(o, c1) ← step x c;
      '(os, c2) ← run xs' c1;
      Some (o :: os, c2)
  end.

(** A call that changes the capacity, and a run without one. *)
Definition is_setCapacity (x : call) : bool :=
  match x with SetCapacity _ => true | _ => false end.

End interface.

(** * Observations, invariants and models of the entries *)

Section index_facts_defs.
Context {K T : Type} `{Countable K} (key_of : T → K).
Implicit Types (hm : gmap K positive) (h : gmap positive T).

(** Every indexed key points to a node that holds it, and every node is
    indexed under its key. *)
Definition indexed hm h : Prop :=
  map_Forall (λ k a, key_of <$> h !! a = Some k) hm ∧
  map_Forall (λ a x, hm !! key_of x = Some a) h.

End index_facts_defs.

Section entries_defs.
Context {K V : Type} `{Countable K}.
Implicit Types (es : list (K * V)) (k : K) (v : V).

(** The value listed under a key, if any. *)
Fixpoint assoc k es : option V :=
  match es with
  | [] => None
  | e :: es' => if decide (e.1 = k) then Some e.2 else assoc k es'
  end.

(** The value listed under a key is overwritten where it stands. *)
Definition replace_value k v es : list (K * V) :=
  (λ e, if decide (e.1 = k) then (k, v) else e) <$> es.

(** The entry of a key is taken out. *)
Definition without k es : list (K * V) := filter (λ e, e.1 ≠ k) es.

End entries_defs.

Section seq_wf_defs.
Context {K V : Type} `{Countable K}.
Implicit Types (c : seq_cache K V) (k : K) (v : V).

(** The nodes of [m_list] are distinct and are exactly the live nodes, and
    [m_hashmap] indexes them by key. *)
Definition seq_wf c : Prop :=
  NoDup (m_list c) ∧
  dom (m_nodes c) = list_to_set (m_list c) ∧
  indexed fst (m_hashmap c) (m_nodes c).

End seq_wf_defs.

Section seq_models_defs.
Context {K V : Type} `{Countable K}.
Implicit Types (es : list (K * V)) (k : K) (v : V).

(** FILO: the last entry leaves when the cache is full. *)
Definition FILO_put_entries (capacity : nat) k v es : list (K * V) :=
  if decide (capacity = 0%nat) then es
  else if decide (k ∈ es.*1) then replace_value k v es
  else (if decide (length es = capacity) then removelast es else es)
       ++ [(k, v)].

(** FIFO: the first entry leaves when the cache is full. *)
Definition FIFO_put_entries (capacity : nat) k v es : list (K * V) :=
  if decide (capacity = 0%nat) then es
  else if decide (k ∈ es.*1) then replace_value k v es
  else (if decide (length es = capacity) then tail es else es)
       ++ [(k, v)].

(** LRU: the entry goes to the front, the last one leaves when the cache is
    full. *)
Definition LRU_put_entries (capacity : nat) k v es : list (K * V) :=
  if decide (capacity = 0%nat) then es
  else if decide (k ∈ es.*1) then (k, v) :: without k es
  else (k, v) :: (if decide (length es = capacity) then removelast es else es).

Definition LRU_get_entries k es : list (K * V) :=
  match assoc k es with
  | Some v => (k, v) :: without k es
  | None => es
  end.

End seq_models_defs.

Section lfu_wf_defs.
Context {K V : Type} `{Countable K}.
Implicit Types (c : LFUCache.t K V) (k : K) (v : V) (f : Z)
  (fm : gmap Z (list positive)) (h : gmap positive (LFUCache.Node K V)).

(** The buckets [fm] partition the live nodes [h] by frequency: a node is
    in the bucket of its [m_freq], a bucket is never empty and holds
    distinct live nodes of its frequency. *)
Definition bucketed fm h : Prop :=
  map_Forall (λ a n, a ∈ LFUCache.bucket (LFUCache.m_freq n) fm
                     ∧ 1 ≤ LFUCache.m_freq n ≤ INT_MAX) h ∧
  map_Forall (λ f l, l ≠ [] ∧ NoDup l
                     ∧ Forall (λ a, LFUCache.m_freq <$> h !! a = Some f) l) fm.

Definition LFU_wf_struct c : Prop :=
  indexed LFUCache.m_key (LFUCache.m_hashmap c) (LFUCache.m_nodes c) ∧
  bucketed (LFUCache.m_freqHashmap c) (LFUCache.m_nodes c).

(** When something is stored, [m_minimalFreq] is the least frequency that
    has a bucket. *)
Definition LFU_wf_min c : Prop :=
  LFUCache.m_nodes c ≠ ∅ →
  is_Some (LFUCache.m_freqHashmap c !! LFUCache.m_minimalFreq c) ∧
  map_Forall (λ f _, LFUCache.m_minimalFreq c ≤ f) (LFUCache.m_freqHashmap c).

Definition LFU_wf c : Prop := LFU_wf_struct c ∧ LFU_wf_min c.

(** The node [a] leaves the bucket of [f]; an emptied bucket is erased. *)
Definition unlink (a : positive) f fm : gmap Z (list positive) :=
  let l1 := filter (λ b, b ≠ a) (LFUCache.bucket f fm) in
  if decide (l1 = []) then delete f fm else <[f := l1]> fm.

(** The node [a] enters the bucket of [f] at the front. *)
Definition link (a : positive) f fm : gmap Z (list positive) :=
  <[f := a :: LFUCache.bucket f fm]> fm.

End lfu_wf_defs.

Section lfu_steps_defs.
Context {K V : Type} `{Countable K}.
Implicit Types (c : LFUCache.t K V) (k : K) (v : V) (f : Z)
  (fm : gmap Z (list positive)) (h : gmap positive (LFUCache.Node K V)).

(** The state after the entry of [k], at node [a] with frequency [f], moved
    to the front of the bucket of [f + 1] with value [v]. *)
Definition promote k v (a : positive) f c : LFUCache.t K V :=
  let fm := LFUCache.m_freqHashmap c in
  let mf := LFUCache.m_minimalFreq c in
  let mf2 :=
    if decide (filter (λ b, b ≠ a) (LFUCache.bucket f fm) = []) then
      if decide (mf = f) then mf + 1 else mf
    else mf in
  let h1 := delete a (LFUCache.m_nodes c) in
  let a' := StdList.alloc h1 in
  LFUCache.LFU (LFUCache.m_capacity c) mf2
    (<[k := a']> (LFUCache.m_hashmap c))
    (link a' (f + 1) (unlink a f fm))
    (<[a' := LFUCache.mkNode k v (f + 1)]> h1).

End lfu_steps_defs.

Inductive policy : Type := PFILO | PFIFO | PLRU | PLFU.

Section cache_props_defs.
Context {K V : Type} `{Countable K}.
Implicit Types (c : cache K V) (k : K) (v : V).

(** The constructor of the class of a policy. *)
Definition construct (p : policy) (capacity : nat) : cache K V :=
  match p with
  | PFILO => FILO (seq_new capacity)
  | PFIFO => FIFO (seq_new capacity)
  | PLRU => LRU (seq_new capacity)
  | PLFU => LFU (LFUCache.new capacity)
  end.

(** The index map of a cache, [m_hashmap]. *)
Definition cache_index c : gmap K positive :=
  match c with
  | FILO s | FIFO s | LRU s => m_hashmap s
  | LFU s => LFUCache.m_hashmap s
  end.

(** A cache is well formed when its index map, its lists and its nodes
    agree.  Every cache is, after any run of calls since its construction
    ([cache_wf_construct], [cache_wf_run]). *)
Definition cache_wf c : Prop :=
  match c with
  | FILO s | FIFO s | LRU s => seq_wf s
  | LFU s => LFU_wf s
  end.

(** The access counter of [k], if [k] is stored in an LFU cache, can be
    incremented [n] more times without overflow of [int].  The other
    classes have no counter. *)
Definition counter_room (n : Z) k c : Prop :=
  match c with
  | FILO _ | FIFO _ | LRU _ => True
  | LFU s =>
      ∀ a nd, LFUCache.m_hashmap s !! k = Some a →
              LFUCache.m_nodes s !! a = Some nd →
              LFUCache.m_freq nd + n ≤ INT_MAX
  end.

#[global] Instance indexed_dec {T} (key_of : T → K) hm (h : gmap positive T) :
  Decision (indexed key_of hm h).
Proof. unfold indexed. apply _. Defined.

#[global] Instance seq_wf_dec (s : seq_cache K V) : Decision (seq_wf s).
Proof. unfold seq_wf. apply _. Defined.

#[global] Instance bucketed_dec fm (h : gmap positive (LFUCache.Node K V)) :
  Decision (bucketed fm h).
Proof. unfold bucketed. apply _. Defined.

#[global] Instance LFU_wf_dec (s : LFUCache.t K V) : Decision (LFU_wf s).
Proof. unfold LFU_wf, LFU_wf_struct, LFU_wf_min. apply _. Defined.

#[global] Instance cache_wf_dec c : Decision (cache_wf c).
Proof. destruct c; simpl; apply _. Defined.

#[global] Instance counter_room_dec n k c : Decision (counter_room n k c).
Proof.
  destruct c as [s|s|s|s]; simpl; try apply _.
  destruct (LFUCache.m_hashmap s !! k) as [a|] eqn:Hk.
  - destruct (LFUCache.m_nodes s !! a) as [nd|] eqn:Ha.
    + destruct (decide (LFUCache.m_freq nd + n ≤ INT_MAX)) as [Hle|Hgt].
      * left. intros a' nd' [= <-] Ha'. rewrite Ha in Ha'. by injection Ha' as <-.
      * right. intros Hall. apply Hgt. by apply (Hall a nd).
    + left. intros a' nd' [= <-] Ha'. by rewrite Ha in Ha'.
  - left. intros a' nd' [=].
Defined.

End cache_props_defs.

Section model_facts_defs.
Context {K V : Type} `{Countable K}.
Implicit Types (es : list (K * V)) (k : K) (v : V).

(** The number of entries after [put], the same for the three classes. *)
Definition put_length (capacity : nat) k es : nat :=
  if decide (capacity = 0%nat) then length es
  else if decide (k ∈ es.*1) then length es
  else if decide (length es = capacity) then length es
  else S (length es).

End model_facts_defs.

Section cache_specs_defs.
Context {K V : Type} `{Countable K}.
Implicit Types (c : cache K V) (k : K) (v : V).

(** The value stored under a key, read through the index map. *)
Definition stored_value k c : option V :=
  match c with
  | FILO s | FIFO s | LRU s => a ← m_hashmap s !! k; snd <$> m_nodes s !! a
  | LFU s =>
      a ← LFUCache.m_hashmap s !! k;
      LFUCache.m_value <$> LFUCache.m_nodes s !! a
  end.

(** The number of stored keys after [put k _]. *)
Definition put_size k c : nat :=
  if decide (getCapacity c = 0%nat) then cache_size c
  else if decide (is_Some (cache_index c !! k)) then cache_size c
  else if decide (cache_size c = getCapacity c) then cache_size c
  else S (cache_size c).

End cache_specs_defs.

Section lfu_runs_defs.
Context {K V : Type} `{Countable K}.
Implicit Types (s : LFUCache.t K V) (k : K) (v : V).

(** No access counter is above [B]. *)
Definition freq_bound (B : Z) s : Prop :=
  map_Forall (λ _ nd, LFUCache.m_freq nd ≤ B) (LFUCache.m_nodes s).

End lfu_runs_defs.

Section claims_defs.
Context {K V : Type} `{Countable K}.
Implicit Types (c : cache K V) (k : K) (v : V).

(** What the caller of a cache of capacity 0 sees. *)
Definition seen_when_empty (x : call (K := K) (V := V)) : seen (V := V) :=
  match x with
  | Get _ => KeyNotFound
  | _ => Done
  end.

End claims_defs.

Section scenarios_defs.

(** The cache left by a run. *)
Definition after (xs : list call) (c : cache Z Z) : cache Z Z :=
  default c (snd <$> run xs c).


End scenarios_defs.

(** * Further observations: policies, LFU nodes, the hash of the tests *)

Section more_defs.
Context {K V : Type} `{Countable K}.

(** The class of a cache. *)
Definition policy_of (c : cache K V) : policy :=
  match c with
  | FILO _ => PFILO
  | FIFO _ => PFIFO
  | LRU _ => PLRU
  | LFU _ => PLFU
  end.

(** The node (key, value, access counter) stored under a key of an LFU
    cache, read through the index map. *)
Definition stored_node (k : K) (s : LFUCache.t K V)
  : option (LFUCache.Node K V) :=
  a ← LFUCache.m_hashmap s !! k; LFUCache.m_nodes s !! a.

(** The key [put] would evict from a full LFU cache:
    [m_freqHashmap[m_minimalFreq].back().m_key]. *)
Definition LFU_victim (s : LFUCache.t K V) : option K :=
  LFUCache.m_key
    <$> StdList.back
          (LFUCache.bucket (LFUCache.m_minimalFreq s) (LFUCache.m_freqHashmap s))
          (LFUCache.m_nodes s).

(** The state after the insertion of [put]: a node of counter 1 for [k] at
    the front of the bucket of 1. *)
Definition LFU_inserted (k : K) (v : V) (s : LFUCache.t K V) : LFUCache.t K V :=
  let a := StdList.alloc (LFUCache.m_nodes s) in
  LFUCache.LFU (LFUCache.m_capacity s) 1
    (<[k := a]> (LFUCache.m_hashmap s))
    (link a 1 (LFUCache.m_freqHashmap s))
    (<[a := LFUCache.mkNode k v 1]> (LFUCache.m_nodes s)).

End more_defs.

Section more_entries_defs.
Context {K V : Type} `{Countable K}.
Implicit Types (es : list (K * V)) (k : K) (v : V).

(** A key other than the one put keeps its value, or is the one evicted
    from a full cache by a new key. *)
Definition kept_or_evicted (capacity : nat) k k' es es' : Prop :=
  assoc k' es' = assoc k' es
  ∨ (assoc k' es' = None ∧ capacity ≠ 0%nat ∧ length es = capacity
     ∧ k ∉ es.*1).

(** The entries [es'] have lost exactly one key of [es], another one than
    [k]: every further key other than [k] is listed with the value it had. *)
Definition evicts_one k es es' : Prop :=
  ∃ k0, k0 ≠ k ∧ is_Some (assoc k0 es) ∧ assoc k0 es' = None
        ∧ ∀ k', k' ≠ k → k' ≠ k0 → assoc k' es' = assoc k' es.

End more_entries_defs.

(** [test.cpp], [struct custom_hash]: the hash the tests give to the caches.
    [uint64_t] arithmetic wraps around at [2^64]. *)
Definition uint64 (x : Z) : Z := x mod 2 ^ 64.

(** [static uint64_t splitmix64(uint64_t x)] *)
Definition splitmix64 (x : Z) : Z :=
  let x := uint64 (x + 0x9e3779b97f4a7c15) in
  let x := uint64 (Z.lxor x (Z.shiftr x 30) * 0xbf58476d1ce4e5b9) in
  let x := uint64 (Z.lxor x (Z.shiftr x 27) * 0x94d049bb133111eb) in
  Z.lxor x (Z.shiftr x 31).

(** [std::size_t operator()(uint64_t x) const]: [FIXED_RANDOM] is a static
    constant, read from the clock once, at the first call. *)
Definition custom_hash (FIXED_RANDOM : Z) (x : Z) : Z :=
  splitmix64 (uint64 (x + FIXED_RANDOM)).

(** Caches of integers reached by runs, and an LFU cache whose one key has
    been accessed [INT_MAX - 1] times since it was put. *)
Definition LFU_after (xs : list call) (capacity : nat) : LFUCache.t Z Z :=
  match after xs (construct PLFU capacity) with
  | LFU s => s
  | _ => LFUCache.new capacity
  end.

Definition LRU_after (xs : list call) (capacity : nat) : seq_cache Z Z :=
  match after xs (construct PLRU capacity) with
  | LRU s => s
  | _ => seq_new capacity
  end.

Definition FILO_after (xs : list call) (capacity : nat) : seq_cache Z Z :=
  match after xs (construct PFILO capacity) with
  | FILO s => s
  | _ => seq_new capacity
  end.

Definition LFU_saturated : LFUCache.t Z Z :=
  LFUCache.LFU 1 INT_MAX {[7 := 1%positive]} {[INT_MAX := [1%positive]]}
    {[1%positive := LFUCache.mkNode 7 0 INT_MAX]}.

(** * Properties *)

(** ** Lists of node addresses *)

Section list_facts.
Context {T : Type}.
Implicit Types (l : list positive) (h : gmap positive T).

Lemma alloc_fresh h : h !! StdList.alloc h = None.
Proof. apply not_elem_of_dom, is_fresh. Qed.

Lemma elements_cons a l h :
  StdList.elements (a :: l) h
  = match h !! a with
    | Some x => x :: StdList.elements l h
    | None => StdList.elements l h
    end.
Proof. reflexivity. Qed.

Lemma elements_insert_fresh l h a x :
  a ∉ l → StdList.elements l (<[a := x]> h) = StdList.elements l h.
Proof.
  induction l as [|b l IH]; intros Ha; [done|].
  apply not_elem_of_cons in Ha as [Hab Hal].
  rewrite !elements_cons, lookup_insert_ne by done. by rewrite IH.
Qed.

Lemma elements_delete_fresh l h a :
  a ∉ l → StdList.elements l (delete a h) = StdList.elements l h.
Proof.
  induction l as [|b l IH]; intros Ha; [done|].
  apply not_elem_of_cons in Ha as [Hab Hal].
  rewrite !elements_cons, lookup_delete_ne by done. by rewrite IH.
Qed.

Lemma elements_app l1 l2 h :
  StdList.elements (l1 ++ l2) h
  = StdList.elements l1 h ++ StdList.elements l2 h.
Proof. apply omap_app. Qed.

Lemma elements_length l h :
  (∀ a, a ∈ l → is_Some (h !! a)) →
  length (StdList.elements l h) = length l.
Proof.
  induction l as [|b l IH]; intros Hl; [done|].
  rewrite elements_cons. destruct (Hl b) as [x ->]; [left|]. simpl.
  rewrite IH; [done|]. intros a Ha. apply Hl. by right.
Qed.

Lemma filter_ne_head a l : a ∉ l → filter (λ b, b ≠ a) (a :: l) = l.
Proof.
  intros Ha. rewrite filter_cons_False by (intros ?; done).
  induction l as [|b l IH]; [done|].
  apply not_elem_of_cons in Ha as [Hab Hal].
  rewrite filter_cons_True by done. by rewrite IH.
Qed.

Lemma filter_ne_absent a l : a ∉ l → filter (λ b, b ≠ a) l = l.
Proof.
  induction l as [|b l IH]; intros Ha; [done|].
  apply not_elem_of_cons in Ha as [Hab Hal].
  rewrite filter_cons_True by done. by rewrite IH.
Qed.

Lemma filter_ne_last a l : a ∉ l → filter (λ b, b ≠ a) (l ++ [a]) = l.
Proof.
  intros Ha. rewrite filter_app, filter_ne_absent by done.
  rewrite filter_cons_False by (intros ?; done). by rewrite filter_nil, app_nil_r.
Qed.

Lemma filter_ne_length a l :
  NoDup l → a ∈ l → S (length (filter (λ b, b ≠ a) l)) = length l.
Proof.
  induction 1 as [|b l Hb Hl IH]; intros Ha; [by apply elem_of_nil in Ha|].
  destruct (decide (b = a)) as [->|Hne].
  - by rewrite filter_ne_head.
  - apply elem_of_cons in Ha as [?|Ha]; [done|].
    rewrite filter_cons_True by done. simpl. by rewrite IH.
Qed.

Lemma last_removelast l a : last l = Some a → l = removelast l ++ [a].
Proof.
  destruct l as [|b l] using rev_ind; [done|].
  rewrite last_snoc. intros [= ->]. by rewrite removelast_last.
Qed.

End list_facts.

(** ** The index map and the nodes *)

Section index_facts.
Context {K T : Type} `{Countable K} (key_of : T → K).
Implicit Types (hm : gmap K positive) (h : gmap positive T).

Lemma indexed_size hm h : indexed key_of hm h → size hm = size h.
Proof.
  revert hm. induction h as [|a x h Ha IH] using map_ind; intros hm [H1 H2].
  - rewrite map_size_empty. apply map_size_empty_iff, map_empty.
    intros k. destruct (hm !! k) as [a|] eqn:E; [|done].
    apply H1 in E. by rewrite lookup_empty in E.
  - assert (hm !! key_of x = Some a) as Hk.
    { apply (H2 a x). by rewrite lookup_insert_eq. }
    rewrite map_size_insert_None by done.
    rewrite <- (IH (delete (key_of x) hm)).
    + rewrite <- (insert_delete_id hm _ _ Hk) at 1.
      by rewrite map_size_insert_None by apply lookup_delete_eq.
    + split.
      * intros k b Hb. apply lookup_delete_Some in Hb as [Hne Hb].
        specialize (H1 k b Hb). simpl in H1.
        destruct (decide (b = a)) as [->|Hba].
        -- rewrite lookup_insert_eq in H1. simpl in H1. congruence.
        -- by rewrite lookup_insert_ne in H1.
      * intros b y Hb. assert (b ≠ a) as Hba by congruence.
        assert (hm !! key_of y = Some b) as Hy.
        { apply (H2 b y). by rewrite lookup_insert_ne. }
        rewrite lookup_delete_ne; [done|]. congruence.
Qed.

Lemma indexed_empty : indexed key_of ∅ ∅.
Proof. split; apply map_Forall_empty. Qed.

(** A node is added under a key that was not indexed. *)
Lemma indexed_insert hm h k a x :
  indexed key_of hm h → hm !! k = None → h !! a = None → key_of x = k →
  indexed key_of (<[k := a]> hm) (<[a := x]> h).
Proof.
  intros [H1 H2] Hk Ha <-. split.
  - intros k' b Hb. simpl.
    apply lookup_insert_Some in Hb as [[Hk' Hab]|[Hne Hb]]; simplify_eq.
    + by rewrite lookup_insert_eq.
    + rewrite lookup_insert_ne; [by apply H1|].
      intros <-. apply H1 in Hb. simpl in Hb. by rewrite Ha in Hb.
  - intros b y Hb. simpl.
    apply lookup_insert_Some in Hb as [[Hab Hxy]|[Hne Hb]]; simplify_eq.
    + by rewrite lookup_insert_eq.
    + rewrite lookup_insert_ne; [by apply H2|].
      intros Hxy. apply H2 in Hb. simpl in Hb. congruence.
Qed.

(** A node and its key are removed. *)
Lemma indexed_delete hm h a x :
  indexed key_of hm h → h !! a = Some x →
  indexed key_of (delete (key_of x) hm) (delete a h).
Proof.
  intros [H1 H2] Ha. split.
  - intros k b Hb. simpl. apply lookup_delete_Some in Hb as [Hne Hb].
    rewrite lookup_delete_ne; [by apply H1|].
    intros <-. apply H1 in Hb. simpl in Hb. rewrite Ha in Hb.
    simpl in Hb. congruence.
  - intros b y Hb. simpl. apply lookup_delete_Some in Hb as [Hne Hb].
    rewrite lookup_delete_ne; [by apply H2|].
    intros Hxy. apply H2 in Hb, Ha. simpl in *. congruence.
Qed.

(** A node is overwritten by one with the same key. *)
Lemma indexed_update hm h a x y :
  indexed key_of hm h → h !! a = Some x → key_of y = key_of x →
  indexed key_of hm (<[a := y]> h).
Proof.
  intros [H1 H2] Ha Hy. split.
  - intros k b Hb. simpl. specialize (H1 k b Hb). simpl in H1.
    destruct (decide (b = a)) as [->|Hne].
    + rewrite lookup_insert_eq. rewrite Ha in H1. simpl in *. congruence.
    + by rewrite lookup_insert_ne.
  - intros b z Hb. simpl.
    apply lookup_insert_Some in Hb as [[Hab Hyz]|[Hne Hb]]; simplify_eq.
    + rewrite Hy. by apply (H2 b x).
    + by apply H2.
Qed.

Lemma indexed_lookup hm h k a :
  indexed key_of hm h → hm !! k = Some a → ∃ x, h !! a = Some x ∧ key_of x = k.
Proof.
  intros [H1 _] Hk. apply H1 in Hk. simpl in Hk.
  destruct (h !! a) as [x|]; [|done]. exists x. split; [done|].
  simpl in Hk. congruence.
Qed.

End index_facts.

(** ** Entries as a list *)

Section entries.
Context {K V : Type} `{Countable K}.
Implicit Types (es : list (K * V)) (k : K) (v : V).

Lemma assoc_None k es : assoc k es = None ↔ k ∉ es.*1.
Proof.
  induction es as [|e es IH]; simpl.
  - split; [intros _; apply not_elem_of_nil|done].
  - rewrite not_elem_of_cons. case_decide; [|rewrite IH]; intuition congruence.
Qed.

Lemma assoc_Some k v es : assoc k es = Some v → (k, v) ∈ es.
Proof.
  induction es as [|[k' v'] es IH]; simpl; [done|].
  case_decide; simpl in *.
  - intros [= <-]. subst. left.
  - intros. right. by apply IH.
Qed.

Lemma assoc_app k es1 es2 :
  assoc k (es1 ++ es2)
  = match assoc k es1 with Some v => Some v | None => assoc k es2 end.
Proof. induction es1 as [|e es1 IH]; simpl; [done|]. by case_decide. Qed.

Lemma assoc_replace_value k v k' es :
  assoc k' (replace_value k v es)
  = if decide (k = k') then (λ _, v) <$> assoc k es else assoc k' es.
Proof.
  induction es as [|[k0 v0] es IH]; simpl; [by case_decide|].
  rewrite IH. repeat case_decide; naive_solver.
Qed.

Lemma assoc_without k k' es :
  assoc k' (without k es) = if decide (k = k') then None else assoc k' es.
Proof.
  unfold without. induction es as [|[k0 v0] es IH]; simpl; [by case_decide|].
  destruct (decide (k0 = k)) as [->|Hne].
  - rewrite filter_cons_False by (simpl; intros ?; done).
    rewrite IH. repeat case_decide; naive_solver.
  - rewrite filter_cons_True by done. simpl.
    rewrite IH. repeat case_decide; naive_solver.
Qed.

Lemma replace_value_keys k v es : (replace_value k v es).*1 = es.*1.
Proof.
  unfold replace_value. rewrite <- list_fmap_compose.
  apply list_fmap_ext. intros _ e _. simpl. by case_decide.
Qed.

Lemma replace_value_length k v es : length (replace_value k v es) = length es.
Proof. apply length_fmap. Qed.

End entries.

(** ** Well-formed caches with one list *)

Section seq_wf.
Context {K V : Type} `{Countable K}.
Implicit Types (c : seq_cache K V) (k : K) (v : V) (e : K * V)
  (hm : gmap K positive) (h : gmap positive (K * V)).

Lemma seq_wf_live c a : seq_wf c → a ∈ m_list c ↔ is_Some (m_nodes c !! a).
Proof.
  intros (_ & Hdom & _). rewrite <- elem_of_dom, Hdom. by rewrite elem_of_list_to_set.
Qed.

Lemma seq_wf_new n : seq_wf (seq_new (K := K) (V := V) n).
Proof.
  split; [constructor|]. split; [|apply indexed_empty].
  simpl. by rewrite dom_empty_L.
Qed.

Lemma seq_wf_clear c : seq_wf (seq_clear c).
Proof. apply (seq_wf_new (m_capacity c)). Qed.

Lemma seq_wf_setCapacity n c : seq_wf c → seq_wf (seq_setCapacity n c).
Proof. done. Qed.

Lemma seq_wf_size c : seq_wf c → size (m_hashmap c) = length (m_list c).
Proof.
  intros (Hnd & Hdom & Hidx).
  rewrite (indexed_size _ _ _ Hidx), <- size_dom, Hdom.
  by apply size_list_to_set.
Qed.

Lemma seq_wf_entries_length c :
  seq_wf c → length (seq_entries c) = size (m_hashmap c).
Proof.
  intros Hwf. rewrite (seq_wf_size c Hwf). apply elements_length.
  intros a Ha. by apply seq_wf_live.
Qed.

Lemma seq_wf_insert cap l l' hm h k v a :
  seq_wf (SeqCache cap l hm h) → hm !! k = None → h !! a = None →
  l' ≡ₚ a :: l →
  seq_wf (SeqCache cap l' (<[k := a]> hm) (<[a := (k, v)]> h)).
Proof.
  intros (Hnd & Hdom & Hidx) Hk Ha Hl. simpl in *.
  assert (a ∉ l) as Hal.
  { rewrite <- (elem_of_list_to_set (C := gset positive)), <- Hdom.
    by apply not_elem_of_dom. }
  split; [|split]; simpl.
  - rewrite Hl. by constructor.
  - rewrite dom_insert_L, Hdom, Hl. done.
  - by apply indexed_insert.
Qed.

Lemma seq_wf_remove cap l hm h a e :
  seq_wf (SeqCache cap l hm h) → h !! a = Some e →
  seq_wf (SeqCache cap (filter (λ b, b ≠ a) l) (delete e.1 hm) (delete a h)).
Proof.
  intros (Hnd & Hdom & Hidx) Ha. simpl in *.
  split; [|split]; simpl.
  - by apply NoDup_filter.
  - rewrite dom_delete_L, Hdom. apply set_eq. intros b.
    rewrite elem_of_difference, !elem_of_list_to_set, list_elem_of_filter.
    rewrite elem_of_singleton. tauto.
  - by apply (indexed_delete fst).
Qed.

Lemma seq_wf_update cap l hm h a e v :
  seq_wf (SeqCache cap l hm h) → h !! a = Some e →
  seq_wf (SeqCache cap l hm (<[a := (e.1, v)]> h)).
Proof.
  intros (Hnd & Hdom & Hidx) Ha. simpl in *.
  split; [|split]; simpl; [done| |].
  - rewrite dom_insert_L, <- Hdom.
    assert (a ∈ dom h) by (apply elem_of_dom; eauto).
    by apply subseteq_union_1_L, singleton_subseteq_l.
  - by apply (indexed_update fst _ _ _ e).
Qed.

(** An entry is listed exactly when its key is indexed to a node holding
    it. *)
Lemma seq_entries_elem c e :
  seq_wf c →
  e ∈ seq_entries c ↔
  ∃ a, m_hashmap c !! e.1 = Some a ∧ m_nodes c !! a = Some e.
Proof.
  intros Hwf. unfold seq_entries, StdList.elements.
  rewrite list_elem_of_omap. split.
  - intros (a & Ha & Hae). exists a. split; [|done].
    destruct Hwf as (_ & _ & _ & H2). by apply (H2 a e).
  - intros (a & Ha & Hae). exists a. split; [|done].
    apply seq_wf_live; eauto.
Qed.

Lemma seq_assoc c k :
  seq_wf c →
  assoc k (seq_entries c)
  = a ← m_hashmap c !! k; snd <$> m_nodes c !! a.
Proof.
  intros Hwf. destruct (m_hashmap c !! k) as [a|] eqn:Hk; simpl.
  - destruct (indexed_lookup fst _ _ _ _ (proj2 (proj2 Hwf)) Hk)
      as ([k' v] & Ha & Hkv). simpl in Hkv. subst k'.
    rewrite Ha. simpl.
    destruct (assoc k (seq_entries c)) as [v'|] eqn:Hv'.
    + apply assoc_Some, seq_entries_elem in Hv' as (a' & Ha' & Hv'); [|done].
      simpl in Ha'. congruence.
    + apply assoc_None in Hv'. exfalso. apply Hv'.
      apply list_elem_of_fmap. exists (k, v). split; [done|].
      apply seq_entries_elem; [done|]. eauto.
  - apply assoc_None. intros Hin.
    apply list_elem_of_fmap in Hin as ([k' v] & -> & Hin).
    apply seq_entries_elem in Hin as (a & Ha & _); [|done].
    simpl in *. congruence.
Qed.

Lemma seq_keys_NoDup c : seq_wf c → NoDup (seq_entries c).*1.
Proof.
  intros Hwf. pose proof Hwf as (Hnd & _ & _ & H2). unfold seq_entries.
  induction Hnd as [|a l Hal Hnd IH]; [constructor|].
  rewrite elements_cons. destruct (m_nodes c !! a) as [x|] eqn:Hx; [|done].
  rewrite fmap_cons. constructor; [|done].
  intros Hin. apply list_elem_of_fmap in Hin as (y & Hxy & Hy).
  apply list_elem_of_omap in Hy as (b & Hb & Hby).
  apply H2 in Hx, Hby. simpl in *. rewrite Hxy in Hx. congruence.
Qed.

End seq_wf.

(** ** The steps of get and put on one list *)

Section seq_steps.
Context {K V : Type} `{Countable K}.
Implicit Types (c : seq_cache K V) (k : K) (v : V).

(** [m_list.emplace_back(...); m_hashmap[key] = (--m_list.end());] *)
Lemma seq_emplace_back_spec c k v :
  seq_wf c → m_hashmap c !! k = None →
  ∃ c',
    (let '(l, h) := StdList.emplace_back (k, v) (m_list c) (m_nodes c) in
     it ← StdList.prev_end l;
     Some (SeqCache (m_capacity c) l (<[k := it]> (m_hashmap c)) h))
    = Some c'
    ∧ seq_wf c' ∧ m_capacity c' = m_capacity c
    ∧ seq_entries c' = seq_entries c ++ [(k, v)].
Proof.
  intros Hwf Hk. destruct c as [cap l hm h]. simpl in *.
  unfold StdList.prev_end. rewrite last_snoc. simpl.
  eexists. split; [done|].
  pose proof (alloc_fresh h) as Ha.
  assert (StdList.alloc h ∉ l) as Hal.
  { intros Hin. apply (seq_wf_live _ _ Hwf) in Hin as [x Hx].
    simpl in Hx. congruence. }
  split; [|split; [done|]].
  - apply seq_wf_insert with (l := l); [done..|].
    by rewrite Permutation_app_comm.
  - unfold seq_entries; cbn [m_list m_nodes].
    rewrite elements_app, elements_insert_fresh by done.
    by rewrite elements_cons, lookup_insert_eq.
Qed.

(** A node for a new key is linked in at the front. *)
Lemma seq_insert_front_spec c k v a :
  seq_wf c → m_hashmap c !! k = None → m_nodes c !! a = None →
  let c' := SeqCache (m_capacity c) (a :: m_list c)
              (<[k := a]> (m_hashmap c)) (<[a := (k, v)]> (m_nodes c)) in
  seq_wf c' ∧ seq_entries c' = (k, v) :: seq_entries c.
Proof.
  intros Hwf Hk Ha. destruct c as [cap l hm h]. simpl in *.
  assert (a ∉ l) as Hal.
  { intros Hin. apply (seq_wf_live _ _ Hwf) in Hin as [x Hx].
    simpl in Hx. congruence. }
  split.
  - by apply seq_wf_insert with (l := l).
  - unfold seq_entries; cbn [m_list m_nodes].
    by rewrite elements_cons, lookup_insert_eq, elements_insert_fresh.
Qed.

(** [m_list.emplace_front(...); m_hashmap[key] = m_list.begin();] *)
Lemma seq_emplace_front_spec c k v :
  seq_wf c → m_hashmap c !! k = None →
  ∃ c',
    (let '(l, h) := StdList.emplace_front (k, v) (m_list c) (m_nodes c) in
     b ← StdList.begin l;
     Some (SeqCache (m_capacity c) l (<[k := b]> (m_hashmap c)) h))
    = Some c'
    ∧ seq_wf c' ∧ m_capacity c' = m_capacity c
    ∧ seq_entries c' = (k, v) :: seq_entries c.
Proof.
  intros Hwf Hk.
  destruct (seq_insert_front_spec c k v (StdList.alloc (m_nodes c)) Hwf Hk)
    as [Hwf' Hes]; [apply alloc_fresh|].
  eexists. split; [done|]. by split; [|split].
Qed.

(** [m_hashmap.erase(m_list.front().first); m_list.pop_front();] *)
Lemma seq_evict_front_spec c :
  seq_wf c → m_list c ≠ [] →
  ∃ e c1,
    (e ← StdList.front (m_list c) (m_nodes c);
     '(l, h) ← StdList.pop_front (m_list c) (m_nodes c);
     Some (SeqCache (m_capacity c) l (delete e.1 (m_hashmap c)) h))
    = Some c1
    ∧ seq_wf c1 ∧ m_capacity c1 = m_capacity c
    ∧ m_hashmap c1 = delete e.1 (m_hashmap c)
    ∧ seq_entries c = e :: seq_entries c1.
Proof.
  intros Hwf Hne. destruct c as [cap [|a l] hm h]; [done|]. simpl in *.
  destruct (proj1 (seq_wf_live _ a Hwf)) as [e He]; [left|]. simpl in He.
  unfold StdList.front, StdList.deref. simpl. rewrite He. simpl.
  exists e. eexists. split; [done|].
  assert (a ∉ l) as Hal.
  { destruct Hwf as (Hnd & _). simpl in Hnd. by apply NoDup_cons in Hnd as []. }
  split; [|split; [done|split; [done|]]].
  - rewrite <- (filter_ne_head a l) at 1 by done. by apply seq_wf_remove.
  - unfold seq_entries; cbn [m_list m_nodes].
    by rewrite elements_cons, He, elements_delete_fresh.
Qed.

(** [m_hashmap.erase(m_list.back().first); m_list.pop_back();] *)
Lemma seq_evict_back_spec c :
  seq_wf c → m_list c ≠ [] →
  ∃ e c1,
    (e ← StdList.back (m_list c) (m_nodes c);
     '(l, h) ← StdList.pop_back (m_list c) (m_nodes c);
     Some (SeqCache (m_capacity c) l (delete e.1 (m_hashmap c)) h))
    = Some c1
    ∧ seq_wf c1 ∧ m_capacity c1 = m_capacity c
    ∧ m_hashmap c1 = delete e.1 (m_hashmap c)
    ∧ seq_entries c1 ++ [e] = seq_entries c.
Proof.
  intros Hwf Hne. destruct c as [cap l hm h]. simpl in *.
  destruct l as [|a l _] using rev_ind; [done|].
  destruct (proj1 (seq_wf_live _ a Hwf)) as [e He].
  { simpl. apply elem_of_app. right. left. }
  simpl in He.
  unfold StdList.back, StdList.pop_back, StdList.deref.
  rewrite last_snoc. simpl. rewrite He. simpl. rewrite removelast_last.
  exists e. eexists. split; [done|].
  assert (a ∉ l) as Hal.
  { destruct Hwf as (Hnd & _). simpl in Hnd.
    apply NoDup_app in Hnd as (_ & Hnd & _). intros Hin.
    apply (Hnd a Hin). left. }
  split; [|split; [done|split; [done|]]].
  - rewrite <- (filter_ne_last a l) at 1 by done. by apply seq_wf_remove.
  - unfold seq_entries; cbn [m_list m_nodes].
    by rewrite elements_app, elements_cons, He, elements_delete_fresh.
Qed.

(** An entry's key tells its node. *)
Lemma seq_wf_key_node c k a b e :
  seq_wf c → m_hashmap c !! k = Some a → m_nodes c !! b = Some e →
  e.1 = k ↔ b = a.
Proof.
  intros (_ & _ & H1 & H2) Hk Hb. split.
  - intros <-. apply H2 in Hb. simpl in Hb. congruence.
  - intros ->. apply H1 in Hk. simpl in Hk. rewrite Hb in Hk.
    simpl in Hk. congruence.
Qed.

(** [iter->second->second = value;] *)
Lemma seq_update_spec c k v a :
  seq_wf c → m_hashmap c !! k = Some a →
  ∃ c',
    (e ← StdList.deref a (m_nodes c);
     Some (SeqCache (m_capacity c) (m_list c) (m_hashmap c)
             (<[a := (e.1, v)]> (m_nodes c))))
    = Some c'
    ∧ seq_wf c' ∧ m_capacity c' = m_capacity c
    ∧ m_list c' = m_list c ∧ m_hashmap c' = m_hashmap c
    ∧ seq_entries c' = replace_value k v (seq_entries c).
Proof.
  intros Hwf Hk.
  destruct (indexed_lookup fst _ _ _ _ (proj2 (proj2 Hwf)) Hk)
    as (e & Ha & Hek).
  unfold StdList.deref. rewrite Ha. simpl.
  eexists. split; [done|]. split; [|do 3 (split; [done|])].
  - destruct c. by apply seq_wf_update.
  - unfold seq_entries; cbn [m_list m_nodes].
    assert (∀ b, b ∈ m_list c → is_Some (m_nodes c !! b)) as Hlive.
    { intros b. by apply seq_wf_live. }
    induction (m_list c) as [|b l IH]; [done|].
    rewrite !elements_cons. destruct (Hlive b) as [y Hy]; [left|].
    rewrite Hy. unfold replace_value. rewrite fmap_cons.
    fold (replace_value k v (StdList.elements l (m_nodes c))).
    rewrite <- IH by (intros; apply Hlive; by right).
    pose proof (seq_wf_key_node c k a b y Hwf Hk Hy) as Hiff.
    destruct (decide (b = a)) as [->|Hne].
    + rewrite lookup_insert_eq, decide_True by intuition congruence.
      by rewrite Hek.
    + by rewrite lookup_insert_ne, Hy, decide_False by intuition congruence.
Qed.

(** [m_list.erase(iter->second)], together with dropping the key. *)
Lemma seq_erase_spec c k a :
  seq_wf c → m_hashmap c !! k = Some a →
  ∃ v,
    m_nodes c !! a = Some (k, v)
    ∧ a ∈ m_list c
    ∧ seq_wf (SeqCache (m_capacity c) (filter (λ b, b ≠ a) (m_list c))
                (delete k (m_hashmap c)) (delete a (m_nodes c)))
    ∧ StdList.elements (filter (λ b, b ≠ a) (m_list c)) (delete a (m_nodes c))
      = without k (seq_entries c).
Proof.
  intros Hwf Hk.
  destruct (indexed_lookup fst _ _ _ _ (proj2 (proj2 Hwf)) Hk)
    as ([k' v] & Ha & Hek). simpl in Hek. subst k'.
  exists v. split; [done|]. split; [apply seq_wf_live; eauto|]. split.
  - destruct c. by apply (seq_wf_remove _ _ _ _ _ (k, v)).
  - rewrite elements_delete_fresh.
    2:{ intros Hin. apply list_elem_of_filter in Hin as [? _]. done. }
    unfold seq_entries.
    assert (∀ b, b ∈ m_list c → is_Some (m_nodes c !! b)) as Hlive.
    { intros b. by apply seq_wf_live. }
    induction (m_list c) as [|b l IH]; [done|].
    rewrite elements_cons. destruct (Hlive b) as [y Hy]; [left|].
    rewrite Hy.
    pose proof (seq_wf_key_node c k a b y Hwf Hk Hy) as Hiff.
    unfold without in *.
    destruct (decide (b = a)) as [->|Hne].
    + rewrite !filter_cons_False by intuition congruence.
      apply IH. intros; apply Hlive; by right.
    + rewrite !filter_cons_True by intuition congruence.
      rewrite elements_cons, Hy. f_equal.
      apply IH. intros; apply Hlive; by right.
Qed.

End seq_steps.

(** ** What get and put do to the list of entries *)

Section seq_refine.
Context {K V : Type} `{Countable K}.
Implicit Types (c : seq_cache K V) (k : K) (v : V).

Lemma seq_indexed_keys c k :
  seq_wf c → k ∈ (seq_entries c).*1 ↔ is_Some (m_hashmap c !! k).
Proof.
  intros Hwf. pose proof (seq_assoc c k Hwf) as Hassoc.
  pose proof (assoc_None k (seq_entries c)) as Hnone.
  destruct (m_hashmap c !! k) as [a|] eqn:Hk; simpl in Hassoc.
  - destruct (indexed_lookup fst _ _ _ _ (proj2 (proj2 Hwf)) Hk)
      as (e & Ha & _).
    rewrite Ha in Hassoc. simpl in Hassoc. split; [eauto|]. intros _.
    destruct (decide (k ∈ (seq_entries c).*1)) as [|Hout]; [done|].
    apply Hnone in Hout. congruence.
  - split; [|by intros [? ?]]. intros Hin. by apply Hnone in Hin.
Qed.

Lemma FILO_get_refines c k :
  seq_wf c →
  FILOCache.get k c
  = match assoc k (seq_entries c) with
    | Some v => Return v c
    | None => Throw c
    end.
Proof.
  intros Hwf. rewrite seq_assoc by done. unfold FILOCache.get.
  destruct (m_hashmap c !! k) as [a|] eqn:Hk; [|done]. simpl.
  destruct (indexed_lookup fst _ _ _ _ (proj2 (proj2 Hwf)) Hk)
    as ([k' v] & Ha & _).
  unfold StdList.deref. by rewrite Ha.
Qed.

Lemma FIFO_get_refines c k :
  seq_wf c →
  FIFOCache.get k c
  = match assoc k (seq_entries c) with
    | Some v => Return v c
    | None => Throw c
    end.
Proof. apply FILO_get_refines. Qed.

Lemma FILO_put_refines c k v :
  seq_wf c →
  ∃ c', FILOCache.put k v c = Some c'
        ∧ seq_wf c' ∧ m_capacity c' = m_capacity c
        ∧ seq_entries c'
          = FILO_put_entries (m_capacity c) k v (seq_entries c).
Proof.
  intros Hwf. unfold FILOCache.put, FILO_put_entries.
  destruct (decide (m_capacity c = 0%nat)) as [|Hcap]; [by exists c|].
  pose proof (seq_indexed_keys c k Hwf) as Hkeys.
  destruct (m_hashmap c !! k) as [a|] eqn:Hk.
  - rewrite decide_True by (apply Hkeys; eauto).
    destruct (seq_update_spec c k v a Hwf Hk) as (c' & -> & ? & ? & _ & _ & ?).
    by exists c'.
  - rewrite (decide_False (P := k ∈ (seq_entries c).*1))
      by (rewrite Hkeys; by intros [? ?]).
    rewrite (seq_wf_entries_length c Hwf).
    destruct (decide (size (m_hashmap c) = m_capacity c)) as [Hfull|Hroom].
    + destruct (seq_evict_back_spec c Hwf) as (e & c1 & -> & Hwf1 & Hc1 & Hm1 & He).
      { intros Hnil. rewrite (seq_wf_size c Hwf), Hnil in Hfull. done. }
      simpl.
      destruct (seq_emplace_back_spec c1 k v Hwf1) as (c' & Hc' & ? & ? & ?).
      { rewrite Hm1. by apply lookup_delete_None; right. }
      exists c'. rewrite <- He, removelast_last.
      split; [done|]. split; [done|]. split; [congruence|done].
    + simpl.
      destruct (seq_emplace_back_spec c k v Hwf Hk) as (c' & Hc' & ? & ? & ?).
      by exists c'.
Qed.

Lemma FIFO_put_refines c k v :
  seq_wf c →
  ∃ c', FIFOCache.put k v c = Some c'
        ∧ seq_wf c' ∧ m_capacity c' = m_capacity c
        ∧ seq_entries c'
          = FIFO_put_entries (m_capacity c) k v (seq_entries c).
Proof.
  intros Hwf. unfold FIFOCache.put, FIFO_put_entries.
  destruct (decide (m_capacity c = 0%nat)) as [|Hcap]; [by exists c|].
  pose proof (seq_indexed_keys c k Hwf) as Hkeys.
  destruct (m_hashmap c !! k) as [a|] eqn:Hk.
  - rewrite decide_True by (apply Hkeys; eauto).
    destruct (seq_update_spec c k v a Hwf Hk) as (c' & -> & ? & ? & _ & _ & ?).
    by exists c'.
  - rewrite (decide_False (P := k ∈ (seq_entries c).*1))
      by (rewrite Hkeys; by intros [? ?]).
    rewrite (seq_wf_entries_length c Hwf).
    destruct (decide (size (m_hashmap c) = m_capacity c)) as [Hfull|Hroom].
    + destruct (seq_evict_front_spec c Hwf) as (e & c1 & -> & Hwf1 & Hc1 & Hm1 & He).
      { intros Hnil. rewrite (seq_wf_size c Hwf), Hnil in Hfull. done. }
      simpl.
      destruct (seq_emplace_back_spec c1 k v Hwf1) as (c' & Hc' & ? & ? & ?).
      { rewrite Hm1. by apply lookup_delete_None; right. }
      exists c'. rewrite He. simpl.
      split; [done|]. split; [done|]. split; [congruence|done].
    + simpl.
      destruct (seq_emplace_back_spec c k v Hwf Hk) as (c' & Hc' & ? & ? & ?).
      by exists c'.
Qed.

Lemma LRU_put_refines c k v :
  seq_wf c →
  ∃ c', LRUCache.put k v c = Some c'
        ∧ seq_wf c' ∧ m_capacity c' = m_capacity c
        ∧ seq_entries c'
          = LRU_put_entries (m_capacity c) k v (seq_entries c).
Proof.
  intros Hwf. unfold LRUCache.put, LRU_put_entries.
  destruct (decide (m_capacity c = 0%nat)) as [|Hcap]; [by exists c|].
  pose proof (seq_indexed_keys c k Hwf) as Hkeys.
  destruct (m_hashmap c !! k) as [a|] eqn:Hk.
  - rewrite decide_True by (apply Hkeys; eauto).
    destruct (seq_erase_spec c k a Hwf Hk) as (v0 & Ha & Hin & Hwf1 & He).
    unfold StdList.erase. rewrite decide_True by done. simpl.
    set (c1 := SeqCache (m_capacity c) (filter (λ b, b ≠ a) (m_list c))
                 (delete k (m_hashmap c)) (delete a (m_nodes c))) in *.
    destruct (seq_emplace_front_spec c1 k v Hwf1) as (c' & Hc' & ? & ? & Hes).
    { apply lookup_delete_eq. }
    simpl in Hc'. rewrite insert_delete_eq in Hc'.
    exists c'. split; [done|]. split; [done|]. split; [done|].
    by rewrite Hes, <- He.
  - rewrite (decide_False (P := k ∈ (seq_entries c).*1))
      by (rewrite Hkeys; by intros [? ?]).
    rewrite (seq_wf_entries_length c Hwf).
    destruct (decide (size (m_hashmap c) = m_capacity c)) as [Hfull|Hroom].
    + destruct (seq_evict_back_spec c Hwf) as (e & c1 & -> & Hwf1 & Hc1 & Hm1 & He).
      { intros Hnil. rewrite (seq_wf_size c Hwf), Hnil in Hfull. done. }
      simpl.
      destruct (seq_emplace_front_spec c1 k v Hwf1) as (c' & Hc' & ? & ? & ?).
      { rewrite Hm1. by apply lookup_delete_None; right. }
      exists c'. rewrite <- He, removelast_last.
      split; [done|]. split; [done|]. split; [congruence|done].
    + simpl.
      destruct (seq_emplace_front_spec c k v Hwf Hk) as (c' & Hc' & ? & ? & ?).
      by exists c'.
Qed.

Lemma LRU_get_refines c k :
  seq_wf c →
  match assoc k (seq_entries c) with
  | Some v =>
      ∃ c', LRUCache.get k c = Return v c'
            ∧ seq_wf c' ∧ m_capacity c' = m_capacity c
            ∧ seq_entries c' = LRU_get_entries k (seq_entries c)
  | None => LRUCache.get k c = Throw c
  end.
Proof.
  intros Hwf. unfold LRU_get_entries.
  rewrite seq_assoc by done. unfold LRUCache.get.
  destruct (m_hashmap c !! k) as [a|] eqn:Hk; [|done]. simpl.
  destruct (seq_erase_spec c k a Hwf Hk) as (v0 & Ha & Hin & Hwf1 & He).
  unfold StdList.deref. rewrite Ha. simpl.
  unfold StdList.erase. rewrite decide_True by (by right).
  pose proof (alloc_fresh (m_nodes c)) as Hfresh.
  set (a' := StdList.alloc (m_nodes c)) in *.
  assert (a' ≠ a) as Hne by congruence.
  rewrite filter_cons_True by done. simpl.
  rewrite lookup_delete_ne, lookup_insert_eq by done.
  simpl. eexists. split; [done|].
  set (c1 := SeqCache (m_capacity c) (filter (λ b, b ≠ a) (m_list c))
               (delete k (m_hashmap c)) (delete a (m_nodes c))) in *.
  destruct (seq_insert_front_spec c1 k v0 a' Hwf1) as [Hwf' Hes].
  { apply lookup_delete_eq. }
  { simpl. by rewrite lookup_delete_ne. }
  simpl in Hwf', Hes.
  rewrite insert_delete_eq in Hwf', Hes.
  rewrite <- delete_insert_ne in Hwf', Hes by done.
  split; [done|]. split; [done|]. by rewrite Hes, <- He.
Qed.

End seq_refine.

(** ** Well-formed LFU caches *)

Section lfu_wf.
Context {K V : Type} `{Countable K}.
Implicit Types (c : LFUCache.t K V) (k : K) (v : V) (f : Z)
  (fm : gmap Z (list positive)) (h : gmap positive (LFUCache.Node K V)).

Lemma bucket_Some f fm l : fm !! f = Some l → LFUCache.bucket f fm = l.
Proof. unfold LFUCache.bucket. by intros ->. Qed.

Lemma bucket_insert_eq f fm l : LFUCache.bucket f (<[f := l]> fm) = l.
Proof. unfold LFUCache.bucket. by rewrite lookup_insert_eq. Qed.

Lemma bucket_insert_ne f f' fm l :
  f ≠ f' → LFUCache.bucket f' (<[f := l]> fm) = LFUCache.bucket f' fm.
Proof. intros. unfold LFUCache.bucket. by rewrite lookup_insert_ne. Qed.

Lemma bucket_delete_ne f f' fm :
  f ≠ f' → LFUCache.bucket f' (delete f fm) = LFUCache.bucket f' fm.
Proof. intros. unfold LFUCache.bucket. by rewrite lookup_delete_ne. Qed.

Lemma bucket_elem_Some f fm a :
  a ∈ LFUCache.bucket f fm → fm !! f = Some (LFUCache.bucket f fm).
Proof.
  unfold LFUCache.bucket. destruct (fm !! f); [done|].
  simpl. by intros ?%elem_of_nil.
Qed.

Lemma bucketed_live fm h f l a :
  bucketed fm h → fm !! f = Some l → a ∈ l →
  ∃ n, h !! a = Some n ∧ LFUCache.m_freq n = f.
Proof.
  intros [_ H2] Hf Ha. destruct (H2 f l Hf) as (_ & _ & Hall).
  rewrite Forall_forall in Hall. specialize (Hall a Ha).
  destruct (h !! a) as [n|]; [|done]. exists n. split; [done|].
  simpl in Hall. congruence.
Qed.

Lemma bucketed_freq_range fm h f l :
  bucketed fm h → fm !! f = Some l → 1 ≤ f ≤ INT_MAX.
Proof.
  intros Hb Hf. destruct (proj2 Hb f l Hf) as (Hne & _).
  destruct l as [|a l]; [done|].
  destruct (bucketed_live fm h f (a :: l) a Hb Hf) as (n & Hn & <-); [left|].
  by destruct (proj1 Hb a n Hn).
Qed.

Lemma bucketed_bucket_live fm h f a :
  bucketed fm h → a ∈ LFUCache.bucket f fm →
  ∃ n, h !! a = Some n ∧ LFUCache.m_freq n = f.
Proof.
  intros Hb Ha. eapply bucketed_live; [done| |done].
  by eapply bucket_elem_Some.
Qed.

Lemma bucketed_bucket_NoDup fm h f : bucketed fm h → NoDup (LFUCache.bucket f fm).
Proof.
  intros [_ H2]. unfold LFUCache.bucket.
  destruct (fm !! f) as [l|] eqn:Hf; simpl; [|constructor].
  by destruct (H2 f l Hf) as (_ & ? & _).
Qed.

Lemma bucketed_empty : bucketed (K := K) (V := V) ∅ ∅.
Proof. split; apply map_Forall_empty. Qed.

Lemma bucketed_unlink fm h a n :
  bucketed fm h → h !! a = Some n →
  bucketed (unlink a (LFUCache.m_freq n) fm) (delete a h).
Proof.
  intros Hb Ha. pose proof Hb as [H1 H2].
  set (f := LFUCache.m_freq n).
  assert (∀ f' b, f' ≠ f → b ∈ LFUCache.bucket f' fm → b ≠ a) as Hother.
  { intros f' b Hne Hin ->.
    destruct (bucketed_bucket_live fm h f' a Hb Hin) as (n' & Hn' & Hf').
    unfold f in Hne. congruence. }
  split.
  - intros b n' Hb'. apply lookup_delete_Some in Hb' as [Hne Hb'].
    destruct (H1 b n' Hb') as [Hin Hrange]. split; [|done].
    unfold unlink. fold f.
    destruct (decide (LFUCache.m_freq n' = f)) as [Heq|Hf].
    + rewrite Heq in Hin |- *.
      assert (b ∈ filter (λ b, b ≠ a) (LFUCache.bucket f fm)) as Hin'.
      { apply list_elem_of_filter. split; [congruence|done]. }
      rewrite decide_False by (intros Hnil; rewrite Hnil in Hin';
                               by apply elem_of_nil in Hin').
      by rewrite bucket_insert_eq.
    + case_decide.
      * by rewrite bucket_delete_ne.
      * by rewrite bucket_insert_ne.
  - assert (∀ f' l, f' ≠ f → fm !! f' = Some l →
            l ≠ [] ∧ NoDup l
            ∧ Forall (λ b, LFUCache.m_freq <$> delete a h !! b = Some f') l)
      as Hkeep.
    { intros f' l Hne Hl. destruct (H2 f' l Hl) as (? & ? & Hall).
      split; [done|]. split; [done|].
      rewrite Forall_forall in *. intros b Hin.
      rewrite lookup_delete_ne; [by apply Hall|].
      intros <-. apply (Hother f' a Hne); [|done].
      by rewrite (bucket_Some f' fm l). }
    intros f' l Hl. unfold unlink in Hl. fold f in Hl. simpl.
    case_decide as Hnil.
    + apply lookup_delete_Some in Hl as [Hne Hl]. by apply Hkeep.
    + apply lookup_insert_Some in Hl as [[<- <-]|[Hne Hl]]; [|by apply Hkeep].
      split; [done|]. split.
      * apply NoDup_filter. by eapply bucketed_bucket_NoDup.
      * rewrite Forall_forall. intros b [Hba Hin]%list_elem_of_filter.
        rewrite lookup_delete_ne by done.
        destruct (bucketed_bucket_live fm h f b Hb Hin) as (n' & -> & Hf').
        simpl. by rewrite Hf'.
Qed.

Lemma bucketed_link fm h a n :
  bucketed fm h → h !! a = None → 1 ≤ LFUCache.m_freq n ≤ INT_MAX →
  bucketed (link a (LFUCache.m_freq n) fm) (<[a := n]> h).
Proof.
  intros Hb Ha Hrange. pose proof Hb as [H1 H2].
  set (f := LFUCache.m_freq n) in *.
  assert (∀ f' b, b ∈ LFUCache.bucket f' fm → b ≠ a) as Hother.
  { intros f' b Hin ->.
    destruct (bucketed_bucket_live fm h f' a Hb Hin) as (n' & Hn' & _).
    congruence. }
  unfold link. split.
  - intros b n' Hb'.
    apply lookup_insert_Some in Hb' as [[<- <-]|[Hne Hb']].
    + split; [|done]. fold f. rewrite bucket_insert_eq. left.
    + destruct (H1 b n' Hb') as [Hin ?]. split; [|done].
      destruct (decide (f = LFUCache.m_freq n')) as [Heq|Hf].
      * rewrite <- Heq in *. rewrite bucket_insert_eq. by right.
      * by rewrite bucket_insert_ne.
  - intros f' l Hl. simpl.
    apply lookup_insert_Some in Hl as [[<- <-]|[Hne Hl]].
    + split; [done|]. split.
      * constructor; [|by eapply bucketed_bucket_NoDup].
        intros Hin. by apply (Hother f a).
      * constructor; [by rewrite lookup_insert_eq|].
        rewrite Forall_forall. intros b Hin.
        rewrite lookup_insert_ne by (apply not_eq_sym; by eapply Hother).
        destruct (bucketed_bucket_live fm h f b Hb Hin) as (n' & -> & Hf').
        simpl. by rewrite Hf'.
    + destruct (H2 f' l Hl) as (? & ? & Hall).
      split; [done|]. split; [done|].
      rewrite Forall_forall in *. intros b Hin.
      rewrite lookup_insert_ne; [by apply Hall|].
      apply not_eq_sym, (Hother f'). by rewrite (bucket_Some f' fm l).
Qed.

End lfu_wf.

(** ** The steps of get and put of the LFU cache *)

Section lfu_steps.
Context {K V : Type} `{Countable K}.
Implicit Types (c : LFUCache.t K V) (k : K) (v : V) (f : Z)
  (fm : gmap Z (list positive)) (h : gmap positive (LFUCache.Node K V)).

Lemma lookup_unlink a f fm f' :
  unlink a f fm !! f'
  = if decide (f' = f) then
      let l1 := filter (λ b, b ≠ a) (LFUCache.bucket f fm) in
      if decide (l1 = []) then None else Some l1
    else fm !! f'.
Proof.
  unfold unlink. simpl. destruct (decide (f' = f)) as [->|Hne].
  - case_decide; [apply lookup_delete_eq|apply lookup_insert_eq].
  - case_decide; [by rewrite lookup_delete_ne|by rewrite lookup_insert_ne].
Qed.

Lemma lookup_link a f fm f' :
  link a f fm !! f'
  = if decide (f' = f) then Some (a :: LFUCache.bucket f fm) else fm !! f'.
Proof.
  unfold link. destruct (decide (f' = f)) as [->|Hne].
  - apply lookup_insert_eq.
  - by rewrite lookup_insert_ne.
Qed.

Lemma LFU_wf_node c k a :
  LFU_wf_struct c → LFUCache.m_hashmap c !! k = Some a →
  ∃ n, LFUCache.m_nodes c !! a = Some n ∧ LFUCache.m_key n = k
       ∧ a ∈ LFUCache.bucket (LFUCache.m_freq n) (LFUCache.m_freqHashmap c)
       ∧ 1 ≤ LFUCache.m_freq n ≤ INT_MAX.
Proof.
  intros [Hidx Hb] Hk.
  destruct (indexed_lookup _ _ _ _ _ Hidx Hk) as (n & Hn & Hkey).
  exists n. destruct (proj1 Hb a n Hn). done.
Qed.

Lemma LFU_promote_struct c k v a n :
  LFU_wf_struct c →
  LFUCache.m_hashmap c !! k = Some a → LFUCache.m_nodes c !! a = Some n →
  LFUCache.m_freq n < INT_MAX →
  LFU_wf_struct (promote k v a (LFUCache.m_freq n) c).
Proof.
  intros Hwf Hk Hn Hmax. pose proof Hwf as [Hidx Hb].
  destruct (LFU_wf_node c k a Hwf Hk) as (n' & Hn' & Hkey & Hin & Hrange).
  assert (n' = n) as -> by congruence.
  pose proof (alloc_fresh (delete a (LFUCache.m_nodes c))) as Hfresh.
  split; simpl.
  - rewrite <- insert_delete_eq. apply indexed_insert; [|apply lookup_delete_eq|done..].
    rewrite <- Hkey. by apply indexed_delete.
  - apply (bucketed_link _ _ _ (LFUCache.mkNode k v (LFUCache.m_freq n + 1)));
      [by apply bucketed_unlink|done|simpl; lia].
Qed.

Lemma LFU_promote_min c k v a n :
  LFU_wf c →
  LFUCache.m_hashmap c !! k = Some a → LFUCache.m_nodes c !! a = Some n →
  LFU_wf_min (promote k v a (LFUCache.m_freq n) c).
Proof.
  intros [Hwf Hmin] Hk Hn _.
  destruct (LFU_wf_node c k a Hwf Hk) as (n' & Hn' & Hkey & Hin & Hrange).
  assert (n' = n) as -> by congruence.
  destruct Hmin as [[l0 Hl0] Hle]; [by intros Hnil; rewrite Hnil in Hn|].
  apply bucket_elem_Some in Hin as Hf.
  pose proof (Hle _ _ Hf) as Hmf. simpl in Hmf.
  set (f := LFUCache.m_freq n) in *.
  set (mf := LFUCache.m_minimalFreq c) in *.
  unfold promote. fold f mf. simpl. split.
  - rewrite lookup_link, lookup_unlink. simpl.
    repeat case_decide; eauto; try lia.
  - intros f' l. simpl. rewrite lookup_link, lookup_unlink. simpl.
    intros Hl.
    assert (f' = f + 1 ∨ (f' ≠ f + 1 ∧ (f' = f ∨ f' ≠ f) ∧ mf ≤ f'
            ∧ (f' = f → filter (λ b, b ≠ a) (LFUCache.bucket f (LFUCache.m_freqHashmap c)) ≠ [])))
      as Hcases.
    { destruct (decide (f' = f + 1)); [by left|right].
      split; [done|]. destruct (decide (f' = f)) as [->|].
      - split; [by left|]. split; [done|]. intros _.
        by destruct (decide (filter (λ b, b ≠ a) (LFUCache.bucket f (LFUCache.m_freqHashmap c)) = [])).
      - split; [by right|]. split; [|done]. by apply (Hle f' l). }
    repeat case_decide; intuition (simplify_eq; lia).
Qed.

Lemma LFU_promote_wf c k v a n :
  LFU_wf c →
  LFUCache.m_hashmap c !! k = Some a → LFUCache.m_nodes c !! a = Some n →
  LFUCache.m_freq n < INT_MAX →
  LFU_wf (promote k v a (LFUCache.m_freq n) c).
Proof.
  intros Hwf Hk Hn Hmax. split.
  - by apply LFU_promote_struct; [apply Hwf|..].
  - by apply LFU_promote_min.
Qed.

End lfu_steps.

Section lfu_refine.
Context {K V : Type} `{Countable K}.
Implicit Types (c : LFUCache.t K V) (k : K) (v : V) (f : Z)
  (fm : gmap Z (list positive)) (h : gmap positive (LFUCache.Node K V)).

Lemma LFU_wf_new n : LFU_wf (LFUCache.new (K := K) (V := V) n).
Proof.
  split; [split; [apply indexed_empty|apply bucketed_empty]|].
  by intros Hne.
Qed.

Lemma LFU_wf_clear c : LFU_wf (LFUCache.clear c).
Proof. apply (LFU_wf_new (LFUCache.m_capacity c)). Qed.

Lemma LFU_wf_setCapacity n c : LFU_wf c → LFU_wf (LFUCache.setCapacity n c).
Proof. done. Qed.

Lemma LFU_wf_size c :
  LFU_wf_struct c →
  size (LFUCache.m_hashmap c) = size (LFUCache.m_nodes c).
Proof. intros [Hidx _]. by apply (indexed_size LFUCache.m_key). Qed.

(** [get] of a stored key. *)
Lemma LFU_get_stored c k a n :
  LFU_wf_struct c →
  LFUCache.m_hashmap c !! k = Some a → LFUCache.m_nodes c !! a = Some n →
  LFUCache.m_freq n < INT_MAX →
  LFUCache.get k c
  = Return (LFUCache.m_value n)
      (promote k (LFUCache.m_value n) a (LFUCache.m_freq n) c).
Proof.
  intros Hwf Hk Hn Hmax.
  destruct (LFU_wf_node c k a Hwf Hk) as (n' & Hn' & Hkey & Hin & Hrange).
  assert (n' = n) as -> by congruence.
  unfold LFUCache.get, promote, StdList.deref. rewrite Hk, Hn. simpl.
  unfold StdList.erase. rewrite (decide_True (P := a ∈ _)) by done. simpl.
  rewrite bucket_insert_eq. unfold unlink. simpl.
  destruct (decide (filter (λ b, b ≠ a)
              (LFUCache.bucket (LFUCache.m_freq n) (LFUCache.m_freqHashmap c))
            = [])) as [Hnil|Hnil]; simpl;
    [destruct (decide (LFUCache.m_minimalFreq c = LFUCache.m_freq n))
       as [Hmf|Hmf]; simpl|];
    unfold int_incr; rewrite ?(decide_True (P := _ < INT_MAX)) by lia; simpl;
    rewrite ?bucket_insert_eq; simpl; by rewrite ?delete_insert_eq.
Qed.

(** [put] on a stored key. *)
Lemma LFU_put_stored c k v a n :
  LFU_wf_struct c → LFUCache.m_capacity c ≠ 0%nat →
  LFUCache.m_hashmap c !! k = Some a → LFUCache.m_nodes c !! a = Some n →
  LFUCache.m_freq n < INT_MAX →
  LFUCache.put k v c = Some (promote k v a (LFUCache.m_freq n) c).
Proof.
  intros Hwf Hcap Hk Hn Hmax.
  destruct (LFU_wf_node c k a Hwf Hk) as (n' & Hn' & Hkey & Hin & Hrange).
  assert (n' = n) as -> by congruence.
  unfold LFUCache.put, promote, StdList.deref.
  rewrite decide_False by done. rewrite Hk, Hn. simpl.
  unfold StdList.erase. rewrite (decide_True (P := a ∈ _)) by done. simpl.
  rewrite bucket_insert_eq. unfold unlink. simpl.
  destruct (decide (filter (λ b, b ≠ a)
              (LFUCache.bucket (LFUCache.m_freq n) (LFUCache.m_freqHashmap c))
            = [])) as [Hnil|Hnil]; simpl;
    [destruct (decide (LFUCache.m_minimalFreq c = LFUCache.m_freq n))
       as [Hmf|Hmf]; simpl|];
    unfold int_incr; rewrite ?(decide_True (P := _ < INT_MAX)) by lia; simpl;
    rewrite ?bucket_insert_eq; simpl; by rewrite ?delete_insert_eq.
Qed.

(** The eviction of [put]: the last node of the bucket of
    [m_minimalFreq] goes. *)
Lemma LFU_evict_spec c :
  LFU_wf c → LFUCache.m_nodes c ≠ ∅ →
  let mf := LFUCache.m_minimalFreq c in
  ∃ a0 n0 c1,
    last (LFUCache.bucket mf (LFUCache.m_freqHashmap c)) = Some a0
    ∧ LFUCache.m_nodes c !! a0 = Some n0
    ∧ LFUCache.m_freq n0 = mf
    ∧ (iter_to_lfu_item ← StdList.back (LFUCache.bucket mf (LFUCache.m_freqHashmap c))
                    (LFUCache.m_nodes c);
       let hm := delete (LFUCache.m_key iter_to_lfu_item) (LFUCache.m_hashmap c) in
       '(l1, h1) ← StdList.pop_back
                     (LFUCache.bucket mf (LFUCache.m_freqHashmap c))
                     (LFUCache.m_nodes c);
       let fm1 := <[mf := l1]> (LFUCache.m_freqHashmap c) in
       let fm2 := if decide (LFUCache.bucket mf fm1 = [])
                  then delete mf fm1 else fm1 in
       Some (LFUCache.LFU (LFUCache.m_capacity c) mf hm fm2 h1)) = Some c1
    ∧ c1 = LFUCache.LFU (LFUCache.m_capacity c) mf
             (delete (LFUCache.m_key n0) (LFUCache.m_hashmap c))
             (unlink a0 mf (LFUCache.m_freqHashmap c))
             (delete a0 (LFUCache.m_nodes c))
    ∧ LFU_wf_struct c1
    ∧ LFUCache.m_hashmap c !! LFUCache.m_key n0 = Some a0.
Proof.
  intros [Hwf Hmin] Hne mf. pose proof Hwf as [Hidx Hb].
  destruct (Hmin Hne) as [[l Hl] _]. fold mf in Hl.
  destruct (proj2 Hb mf l Hl) as (Hlne & Hnd & _).
  rewrite (bucket_Some mf _ l Hl).
  destruct l as [|a0 l _] using rev_ind; [done|].
  destruct (bucketed_live _ _ mf (l ++ [a0]) a0 Hb Hl) as (n0 & Hn0 & Hf0).
  { apply elem_of_app. right. left. }
  exists a0, n0. eexists. split; [apply last_snoc|]. split; [done|].
  split; [done|].
  unfold StdList.back, StdList.pop_back, StdList.deref.
  rewrite last_snoc. simpl. rewrite Hn0. simpl. rewrite removelast_last.
  rewrite bucket_insert_eq.
  assert (a0 ∉ l) as Hal.
  { apply NoDup_app in Hnd as (_ & Hnd & _). intros Hin.
    apply (Hnd a0 Hin). left. }
  assert ((if decide (l = []) then delete mf (<[mf := l]> (LFUCache.m_freqHashmap c))
           else <[mf := l]> (LFUCache.m_freqHashmap c))
          = unlink a0 mf (LFUCache.m_freqHashmap c)) as ->.
  { unfold unlink. rewrite (bucket_Some mf _ _ Hl). simpl.
    rewrite filter_ne_last by done.
    case_decide; [by rewrite delete_insert_eq|done]. }
  split; [done|]. split; [done|]. split.
  - split; simpl.
    + by apply indexed_delete.
    + rewrite <- Hf0. by apply bucketed_unlink.
  - by apply (proj2 Hidx a0 n0).
Qed.

(** The insertion of [put]: a node of frequency 1 for a key that is not
    indexed. *)
Lemma LFU_insert_spec c k v :
  LFU_wf_struct c → LFUCache.m_hashmap c !! k = None →
  let mf := 1 in
  ∃ a c',
    (let '(l, h) :=
       StdList.emplace_front (LFUCache.mkNode k v mf)
         (LFUCache.bucket mf (LFUCache.m_freqHashmap c)) (LFUCache.m_nodes c) in
     let fm := <[mf := l]> (LFUCache.m_freqHashmap c) in
     b ← StdList.begin (LFUCache.bucket mf fm);
     Some (LFUCache.LFU (LFUCache.m_capacity c) mf
             (<[k := b]> (LFUCache.m_hashmap c)) fm h)) = Some c'
    ∧ LFU_wf c'
    ∧ LFUCache.m_capacity c' = LFUCache.m_capacity c
    ∧ LFUCache.m_minimalFreq c' = 1
    ∧ LFUCache.m_hashmap c' = <[k := a]> (LFUCache.m_hashmap c)
    ∧ LFUCache.m_nodes c'
      = <[a := LFUCache.mkNode k v 1]> (LFUCache.m_nodes c).
Proof.
  intros [Hidx Hb] Hk mf. unfold StdList.emplace_front. simpl.
  rewrite bucket_insert_eq. simpl.
  pose proof (alloc_fresh (LFUCache.m_nodes c)) as Hfresh.
  exists (StdList.alloc (LFUCache.m_nodes c)). eexists. split; [done|].
  assert (bucketed (link (StdList.alloc (LFUCache.m_nodes c)) 1
                      (LFUCache.m_freqHashmap c))
            (<[StdList.alloc (LFUCache.m_nodes c) := LFUCache.mkNode k v 1]>
               (LFUCache.m_nodes c))) as Hb'.
  { apply (bucketed_link _ _ _ (LFUCache.mkNode k v 1)); [done..|].
    simpl. unfold INT_MAX. lia. }
  split; [|by do 3 (split; [done|])].
  split; [split; simpl; [by apply indexed_insert|done]|].
  intros _. simpl. split.
  - unfold mf. by rewrite lookup_insert_eq.
  - intros f l Hl. simpl.
    by destruct (bucketed_freq_range _ _ f l Hb' Hl).
Qed.

End lfu_refine.

(** ** Caches behind the interface *)

Section lfu_calls.
Context {K V : Type} `{Countable K}.
Implicit Types (s : LFUCache.t K V) (k : K) (v : V).

Lemma LFU_get_absent s k :
  LFUCache.m_hashmap s !! k = None → LFUCache.get k s = Throw s.
Proof. unfold LFUCache.get. by intros ->. Qed.

(** At [INT_MAX] the counter cannot be incremented. *)
Lemma LFU_get_overflow s k a n :
  LFU_wf_struct s →
  LFUCache.m_hashmap s !! k = Some a → LFUCache.m_nodes s !! a = Some n →
  ¬ LFUCache.m_freq n < INT_MAX →
  LFUCache.get k s = Undefined.
Proof.
  intros Hwf Hk Hn Hmax.
  destruct (LFU_wf_node s k a Hwf Hk) as (n' & Hn' & Hkey & Hin & Hrange).
  assert (n' = n) as -> by congruence.
  unfold LFUCache.get, StdList.deref. rewrite Hk, Hn. simpl.
  unfold StdList.erase. rewrite (decide_True (P := a ∈ _)) by done. simpl.
  rewrite bucket_insert_eq.
  destruct (decide (filter (λ b, b ≠ a)
              (LFUCache.bucket (LFUCache.m_freq n) (LFUCache.m_freqHashmap s))
            = [])) as [Hnil|Hnil]; simpl;
    [destruct (decide (LFUCache.m_minimalFreq s = LFUCache.m_freq n))
       as [Hmf|Hmf]; simpl|];
    unfold int_incr; rewrite ?Hmf;
    rewrite ?(decide_False (P := _ < INT_MAX)) by done; done.
Qed.

Lemma LFU_put_overflow s k v a n :
  LFU_wf_struct s → LFUCache.m_capacity s ≠ 0%nat →
  LFUCache.m_hashmap s !! k = Some a → LFUCache.m_nodes s !! a = Some n →
  ¬ LFUCache.m_freq n < INT_MAX →
  LFUCache.put k v s = None.
Proof.
  intros Hwf Hcap Hk Hn Hmax.
  destruct (LFU_wf_node s k a Hwf Hk) as (n' & Hn' & Hkey & Hin & Hrange).
  assert (n' = n) as -> by congruence.
  unfold LFUCache.put, StdList.deref.
  rewrite decide_False by done. rewrite Hk, Hn. simpl.
  unfold StdList.erase. rewrite (decide_True (P := a ∈ _)) by done. simpl.
  rewrite bucket_insert_eq.
  destruct (decide (filter (λ b, b ≠ a)
              (LFUCache.bucket (LFUCache.m_freq n) (LFUCache.m_freqHashmap s))
            = [])) as [Hnil|Hnil]; simpl;
    [destruct (decide (LFUCache.m_minimalFreq s = LFUCache.m_freq n))
       as [Hmf|Hmf]; simpl|];
    unfold int_incr; rewrite ?Hmf;
    rewrite ?(decide_False (P := _ < INT_MAX)) by done; done.
Qed.

(** [put] of a key that is not stored. *)
Lemma LFU_put_new s k v :
  LFU_wf s → LFUCache.m_capacity s ≠ 0%nat →
  LFUCache.m_hashmap s !! k = None →
  ∃ a s',
    LFUCache.put k v s = Some s'
    ∧ LFU_wf s'
    ∧ LFUCache.m_capacity s' = LFUCache.m_capacity s
    ∧ LFUCache.m_minimalFreq s' = 1
    ∧ LFUCache.m_hashmap s' !! k = Some a
    ∧ LFUCache.m_nodes s' !! a = Some (LFUCache.mkNode k v 1)
    ∧ (∀ b nd, LFUCache.m_nodes s' !! b = Some nd →
               nd = LFUCache.mkNode k v 1 ∨ LFUCache.m_nodes s !! b = Some nd)
    ∧ LFUCache.size s'
      = if decide (LFUCache.size s = LFUCache.m_capacity s)
        then LFUCache.size s else S (LFUCache.size s).
Proof.
  intros Hwf Hcap Hk. unfold LFUCache.put, LFUCache.size.
  rewrite decide_False by done. rewrite Hk.
  destruct (decide (size (LFUCache.m_hashmap s) = LFUCache.m_capacity s))
    as [Hfull|Hroom].
  - assert (LFUCache.m_nodes s ≠ ∅) as Hne.
    { intros Hnil. rewrite (LFU_wf_size s (proj1 Hwf)), Hnil in Hfull.
      rewrite map_size_empty in Hfull. done. }
    destruct (LFU_evict_spec s Hwf Hne)
      as (a0 & n0 & s1 & _ & _ & _ & Heq & Hs1 & Hwf1 & Hk0).
    cbv zeta in Heq |- *. rewrite Heq. simpl.
    destruct (LFU_insert_spec s1 k v Hwf1)
      as (a & s' & Heq' & Hwf' & Hcap' & Hmf' & Hhm' & Hnd').
    { rewrite Hs1. simpl. by apply lookup_delete_None; right. }
    cbv zeta in Heq'. exists a, s'. split; [done|]. split; [done|].
    split; [by rewrite Hcap', Hs1|]. split; [done|].
    split; [by rewrite Hhm', lookup_insert_eq|].
    split; [by rewrite Hnd', lookup_insert_eq|]. split.
    { intros b nd. rewrite Hnd', Hs1. simpl.
      intros [[_ <-]|[_ [_ ?]%lookup_delete_Some]]%lookup_insert_Some; eauto. }
    rewrite Hhm', Hs1. simpl.
    rewrite map_size_insert_None by (by apply lookup_delete_None; right).
    rewrite map_size_delete_Some by eauto. lia.
  - simpl.
    destruct (LFU_insert_spec s k v (proj1 Hwf) Hk)
      as (a & s' & Heq' & Hwf' & Hcap' & Hmf' & Hhm' & Hnd').
    cbv zeta in Heq'. exists a, s'. split; [done|]. split; [done|].
    split; [done|]. split; [done|].
    split; [by rewrite Hhm', lookup_insert_eq|].
    split; [by rewrite Hnd', lookup_insert_eq|]. split.
    { intros b nd. rewrite Hnd'.
      intros [[_ <-]|[_ ?]]%lookup_insert_Some; eauto. }
    rewrite Hhm'. by apply map_size_insert_None.
Qed.

Lemma LFU_promote_size s k v a f :
  LFUCache.m_hashmap s !! k = Some a →
  LFUCache.size (promote k v a f s) = LFUCache.size s.
Proof.
  intros Hk. unfold LFUCache.size, promote. simpl.
  apply map_size_insert_Some. eauto.
Qed.

Lemma LFU_get_wf s k v s' :
  LFU_wf s → LFUCache.get k s = Return v s' → LFU_wf s'.
Proof.
  intros Hwf Hget.
  destruct (LFUCache.m_hashmap s !! k) as [a|] eqn:Hk.
  - destruct (LFU_wf_node s k a (proj1 Hwf) Hk) as (n & Hn & _).
    destruct (decide (LFUCache.m_freq n < INT_MAX)) as [Hlt|Hmax].
    + rewrite (LFU_get_stored s k a n (proj1 Hwf) Hk Hn Hlt) in Hget.
      injection Hget as _ <-. by apply LFU_promote_wf.
    + by rewrite (LFU_get_overflow s k a n (proj1 Hwf) Hk Hn Hmax) in Hget.
  - by rewrite LFU_get_absent in Hget.
Qed.

Lemma LFU_get_throw s k s' : LFUCache.get k s = Throw s' → s' = s.
Proof.
  unfold LFUCache.get. destruct (LFUCache.m_hashmap s !! k); [|congruence].
  by repeat case_match.
Qed.

Lemma LFU_put_wf s k v s' :
  LFU_wf s → LFUCache.put k v s = Some s' → LFU_wf s'.
Proof.
  intros Hwf Hput.
  destruct (decide (LFUCache.m_capacity s = 0%nat)) as [Hcap|Hcap].
  { unfold LFUCache.put in Hput. rewrite decide_True in Hput by done. congruence. }
  destruct (LFUCache.m_hashmap s !! k) as [a|] eqn:Hk.
  - destruct (LFU_wf_node s k a (proj1 Hwf) Hk) as (n & Hn & _).
    destruct (decide (LFUCache.m_freq n < INT_MAX)) as [Hlt|Hmax].
    + rewrite (LFU_put_stored s k v a n (proj1 Hwf) Hcap Hk Hn Hlt) in Hput.
      injection Hput as <-. by apply LFU_promote_wf.
    + by rewrite (LFU_put_overflow s k v a n (proj1 Hwf) Hcap Hk Hn Hmax) in Hput.
  - destruct (LFU_put_new s k v Hwf Hcap Hk) as (a & s2 & Heq & Hwf2 & _).
    congruence.
Qed.

End lfu_calls.

(** ** Calls through the interface keep a cache well formed *)

Section cache_calls.
Context {K V : Type} `{Countable K}.
Implicit Types (c : cache K V) (k : K) (v : V).

Lemma cache_wf_construct p n : cache_wf (construct (K := K) (V := V) p n).
Proof. destruct p; simpl; first [apply seq_wf_new | apply LFU_wf_new]. Qed.

Lemma cache_wf_clear c : cache_wf (clear c).
Proof. destruct c; simpl; first [apply seq_wf_clear | apply LFU_wf_clear]. Qed.

Lemma cache_wf_setCapacity n c : cache_wf c → cache_wf (setCapacity n c).
Proof. by destruct c. Qed.

Lemma cache_wf_put c k v c' : cache_wf c → put k v c = Some c' → cache_wf c'.
Proof.
  destruct c as [s|s|s|s]; simpl; intros Hwf Hput.
  - destruct (FILO_put_refines s k v Hwf) as (s' & Heq & ? & _).
    rewrite Heq in Hput. by injection Hput as <-.
  - destruct (FIFO_put_refines s k v Hwf) as (s' & Heq & ? & _).
    rewrite Heq in Hput. by injection Hput as <-.
  - destruct (LRU_put_refines s k v Hwf) as (s' & Heq & ? & _).
    rewrite Heq in Hput. by injection Hput as <-.
  - destruct (LFUCache.put k v s) as [s'|] eqn:Heq; [|done].
    injection Hput as <-. by apply (LFU_put_wf s k v).
Qed.

Lemma cache_wf_get c k v c' : cache_wf c → get k c = Return v c' → cache_wf c'.
Proof.
  destruct c as [s|s|s|s]; simpl; intros Hwf Hget.
  - rewrite FILO_get_refines in Hget by done.
    destruct (assoc k (seq_entries s)); simpl in Hget; [|done].
    by injection Hget as _ <-.
  - rewrite FIFO_get_refines in Hget by done.
    destruct (assoc k (seq_entries s)); simpl in Hget; [|done].
    by injection Hget as _ <-.
  - pose proof (LRU_get_refines s k Hwf) as Href.
    destruct (assoc k (seq_entries s)).
    + destruct Href as (s' & Heq & ? & _). rewrite Heq in Hget.
      simpl in Hget. by injection Hget as _ <-.
    + by rewrite Href in Hget.
  - destruct (LFUCache.get k s) as [v' s'| |] eqn:Heq; simpl in Hget; [|done..].
    injection Hget as _ <-. by apply (LFU_get_wf s k v').
Qed.

(** A call that throws leaves the object as it was. *)
Lemma get_throw_same c k c' : get k c = Throw c' → c' = c.
Proof.
  destruct c as [s|s|s|s]; simpl.
  - unfold FILOCache.get. repeat case_match; simpl; congruence.
  - unfold FIFOCache.get. repeat case_match; simpl; congruence.
  - unfold LRUCache.get. repeat case_match; simpl; congruence.
  - destruct (LFUCache.get k s) as [| s' |] eqn:Heq; simpl; [done| |done].
    apply LFU_get_throw in Heq. congruence.
Qed.

Lemma get_absent c k : cache_index c !! k = None → get k c = Throw c.
Proof.
  destruct c as [s|s|s|s]; simpl; intros Hk.
  - unfold FILOCache.get. by rewrite Hk.
  - unfold FIFOCache.get. by rewrite Hk.
  - unfold LRUCache.get. by rewrite Hk.
  - by rewrite LFU_get_absent.
Qed.

Lemma get_throw_absent c k c' : get k c = Throw c' → cache_index c !! k = None.
Proof.
  destruct c as [s|s|s|s]; simpl.
  - unfold FILOCache.get. repeat case_match; simpl; congruence.
  - unfold FIFOCache.get. repeat case_match; simpl; congruence.
  - unfold LRUCache.get. repeat case_match; simpl; congruence.
  - unfold LFUCache.get. repeat case_match; simpl; congruence.
Qed.

Lemma cache_wf_step x c o c' : cache_wf c → step x c = Some (o, c') → cache_wf c'.
Proof.
  intros Hwf. destruct x as [k|k v| |n]; simpl.
  - destruct (get k c) as [v c1|c1|] eqn:Hget; intros [= <- <-].
    + by apply (cache_wf_get c k v).
    + by rewrite (get_throw_same c k c1).
  - destruct (put k v c) as [c1|] eqn:Hput; simpl; intros [= <- <-].
    by apply (cache_wf_put c k v).
  - intros [= <- <-]. apply cache_wf_clear.
  - intros [= <- <-]. by apply cache_wf_setCapacity.
Qed.

Lemma cache_wf_run xs c os c' : cache_wf c → run xs c = Some (os, c') → cache_wf c'.
Proof.
  revert c os. induction xs as [|x xs IH]; intros c os Hwf; simpl.
  - by intros [= <- <-].
  - destruct (step x c) as [[o c1]|] eqn:Hstep; simpl; [|done].
    destruct (run xs c1) as [[os' c2]|] eqn:Hrun; simpl; [|done].
    intros [= <- <-]. apply (IH c1 os'); [|done].
    by apply (cache_wf_step x c o).
Qed.

End cache_calls.

(** ** Sizes and stored values *)

Section model_facts.
Context {K V : Type} `{Countable K}.
Implicit Types (es : list (K * V)) (k : K) (v : V).

Lemma assoc_not_in_sub k es es' :
  k ∉ es.*1 → es' ⊆ es → assoc k es' = None.
Proof.
  intros Hk Hsub. apply assoc_None. intros Hin. apply Hk.
  apply list_elem_of_fmap in Hin as (e & -> & He).
  apply list_elem_of_fmap. exists e. split; [done|]. by apply Hsub.
Qed.

Lemma removelast_sub es : removelast es ⊆ es.
Proof.
  destruct es as [|e es _] using rev_ind; [done|].
  rewrite removelast_last. intros x Hx. apply elem_of_app. by left.
Qed.

Lemma tail_sub es : tail es ⊆ es.
Proof. destruct es; [done|]. simpl. intros x Hx. by right. Qed.

Lemma removelast_length es : es ≠ [] → S (length (removelast es)) = length es.
Proof.
  destruct es as [|e es _] using rev_ind; [done|]. intros _.
  rewrite removelast_last, length_app. simpl. lia.
Qed.

Lemma FILO_put_entries_length capacity k v es :
  length (FILO_put_entries capacity k v es) = put_length capacity k es.
Proof.
  unfold FILO_put_entries, put_length. repeat case_decide; try done.
  - apply replace_value_length.
  - rewrite length_app. simpl.
    assert (es ≠ []) as Hne by (intros ->; simpl in *; congruence).
    pose proof (removelast_length es Hne). lia.
  - rewrite length_app. simpl. lia.
Qed.

Lemma FIFO_put_entries_length capacity k v es :
  length (FIFO_put_entries capacity k v es) = put_length capacity k es.
Proof.
  unfold FIFO_put_entries, put_length. repeat case_decide; try done.
  - apply replace_value_length.
  - rewrite length_app. destruct es; simpl in *; [congruence|lia].
  - rewrite length_app. simpl. lia.
Qed.

Lemma without_length k es :
  NoDup es.*1 → k ∈ es.*1 → S (length (without k es)) = length es.
Proof.
  unfold without. induction es as [|[k0 v0] es IH]; simpl.
  - by intros _ ?%elem_of_nil.
  - intros [Hk0 Hnd]%NoDup_cons Hin.
    destruct (decide (k0 = k)) as [->|Hne].
    + rewrite filter_cons_False by (simpl; intros ?; done).
      f_equal. clear IH Hin. induction es as [|[k1 v1] es IH]; [done|].
      simpl in *. apply not_elem_of_cons in Hk0 as [? ?].
      apply NoDup_cons in Hnd as [? ?].
      rewrite filter_cons_True by (simpl; congruence). simpl. by rewrite IH.
    + rewrite filter_cons_True by done. simpl. rewrite IH; [done..|].
      apply elem_of_cons in Hin as [?|?]; [congruence|done].
Qed.

Lemma LRU_put_entries_length capacity k v es :
  NoDup es.*1 →
  length (LRU_put_entries capacity k v es) = put_length capacity k es.
Proof.
  intros Hnd. unfold LRU_put_entries, put_length.
  repeat case_decide; try done; simpl.
  - by apply without_length.
  - assert (es ≠ []) by (intros ->; simpl in *; congruence).
    by apply removelast_length.
Qed.

Lemma FILO_put_entries_assoc capacity k v es :
  capacity ≠ 0%nat → assoc k (FILO_put_entries capacity k v es) = Some v.
Proof.
  intros Hcap. unfold FILO_put_entries. rewrite decide_False by done.
  case_decide as Hin.
  - rewrite assoc_replace_value, decide_True by done.
    destruct (assoc k es) eqn:Hk; [done|]. by apply assoc_None in Hk.
  - rewrite assoc_app. simpl.
    rewrite (assoc_not_in_sub k es _ Hin); [by rewrite decide_True|].
    case_decide; [apply removelast_sub|done].
Qed.

Lemma FIFO_put_entries_assoc capacity k v es :
  capacity ≠ 0%nat → assoc k (FIFO_put_entries capacity k v es) = Some v.
Proof.
  intros Hcap. unfold FIFO_put_entries. rewrite decide_False by done.
  case_decide as Hin.
  - rewrite assoc_replace_value, decide_True by done.
    destruct (assoc k es) eqn:Hk; [done|]. by apply assoc_None in Hk.
  - rewrite assoc_app. simpl.
    rewrite (assoc_not_in_sub k es _ Hin); [by rewrite decide_True|].
    case_decide; [apply tail_sub|done].
Qed.

Lemma LRU_put_entries_assoc capacity k v es :
  capacity ≠ 0%nat → assoc k (LRU_put_entries capacity k v es) = Some v.
Proof.
  intros Hcap. unfold LRU_put_entries. rewrite decide_False by done.
  case_decide; simpl; by rewrite decide_True.
Qed.

End model_facts.

Section cache_specs.
Context {K V : Type} `{Countable K}.
Implicit Types (c : cache K V) (k : K) (v : V).

Lemma seq_put_size (s s' : seq_cache K V) k es' :
  seq_wf s → seq_wf s' → seq_entries s' = es' →
  length es' = put_length (m_capacity s) k (seq_entries s) →
  seq_size s'
  = if decide (m_capacity s = 0%nat) then seq_size s
    else if decide (is_Some (m_hashmap s !! k)) then seq_size s
    else if decide (seq_size s = m_capacity s) then seq_size s
    else S (seq_size s).
Proof.
  intros Hwf Hwf' Hes Hlen. unfold seq_size.
  rewrite <- (seq_wf_entries_length s' Hwf'), Hes, Hlen.
  unfold put_length. rewrite (seq_wf_entries_length s Hwf).
  pose proof (seq_indexed_keys s k Hwf). repeat case_decide; tauto.
Qed.

Lemma put_spec c k v (n : Z) :
  cache_wf c → counter_room (n + 1) k c → 0 ≤ n → n + 1 ≤ INT_MAX →
  ∃ c', put k v c = Some c'
        ∧ cache_wf c'
        ∧ getCapacity c' = getCapacity c
        ∧ cache_size c' = put_size k c
        ∧ (getCapacity c = 0%nat → c' = c)
        ∧ (getCapacity c ≠ 0%nat →
           stored_value k c' = Some v ∧ counter_room n k c').
Proof.
  intros Hwf Hroom Hn0 Hn. destruct c as [s|s|s|s]; simpl in *.
  - destruct (FILO_put_refines s k v Hwf) as (s' & Heq & Hwf' & Hcap & Hes).
    exists (FILO s'). rewrite Heq. simpl.
    split; [done|]. split; [done|]. split; [done|]. split; [|split].
    + apply (seq_put_size s s' k _ Hwf Hwf' Hes), FILO_put_entries_length.
    + intros H0. unfold FILOCache.put in Heq.
      rewrite decide_True in Heq by done. congruence.
    + intros Hne. split; [|done]. rewrite <- seq_assoc, Hes by done.
      by apply FILO_put_entries_assoc.
  - destruct (FIFO_put_refines s k v Hwf) as (s' & Heq & Hwf' & Hcap & Hes).
    exists (FIFO s'). rewrite Heq. simpl.
    split; [done|]. split; [done|]. split; [done|]. split; [|split].
    + apply (seq_put_size s s' k _ Hwf Hwf' Hes), FIFO_put_entries_length.
    + intros H0. unfold FIFOCache.put in Heq.
      rewrite decide_True in Heq by done. congruence.
    + intros Hne. split; [|done]. rewrite <- seq_assoc, Hes by done.
      by apply FIFO_put_entries_assoc.
  - destruct (LRU_put_refines s k v Hwf) as (s' & Heq & Hwf' & Hcap & Hes).
    exists (LRU s'). rewrite Heq. simpl.
    split; [done|]. split; [done|]. split; [done|]. split; [|split].
    + apply (seq_put_size s s' k _ Hwf Hwf' Hes), LRU_put_entries_length.
      by apply seq_keys_NoDup.
    + intros H0. unfold LRUCache.put in Heq.
      rewrite decide_True in Heq by done. congruence.
    + intros Hne. split; [|done]. rewrite <- seq_assoc, Hes by done.
      by apply LRU_put_entries_assoc.
  - unfold put_size. simpl.
    destruct (decide (LFUCache.m_capacity s = 0%nat)) as [Hcap|Hcap].
    { exists (LFU s). unfold LFUCache.put. rewrite decide_True by done.
      simpl. do 5 (split; [done|]). by intros ?. }
    destruct (LFUCache.m_hashmap s !! k) as [a|] eqn:Hk.
    + destruct (LFU_wf_node s k a (proj1 Hwf) Hk) as (nd & Hnd & _).
      pose proof (Hroom a nd eq_refl Hnd) as Hfreq.
      assert (LFUCache.m_freq nd < INT_MAX) as Hlt by lia.
      rewrite (LFU_put_stored s k v a nd (proj1 Hwf) Hcap Hk Hnd Hlt).
      eexists. split; [done|]. split; [by apply LFU_promote_wf|].
      split; [done|]. split; [|split; [done|]].
      * rewrite (decide_True (P := is_Some _)) by eauto.
        by apply LFU_promote_size.
      * intros _. unfold promote. simpl. rewrite lookup_insert_eq. simpl.
        rewrite lookup_insert_eq. simpl. split; [done|].
        intros a' nd' [= <-]. rewrite lookup_insert_eq. intros [= <-].
        simpl. lia.
    + destruct (LFU_put_new s k v Hwf Hcap Hk)
        as (a & s' & Heq & Hwf' & Hcap' & _ & Hk' & Hnd' & _ & Hsize).
      exists (LFU s'). rewrite Heq. simpl.
      split; [done|]. split; [done|]. split; [done|]. split; [|split; [done|]].
      * done.
      * intros _. rewrite Hk'. simpl. rewrite Hnd'. simpl. split; [done|].
        intros a' nd' [= <-]. rewrite Hnd'. intros [= <-]. simpl. lia.
Qed.

Lemma get_spec c k v :
  cache_wf c → stored_value k c = Some v → counter_room 1 k c →
  ∃ c', get k c = Return v c'
        ∧ cache_wf c'
        ∧ getCapacity c' = getCapacity c
        ∧ cache_size c' = cache_size c.
Proof.
  intros Hwf Hv Hroom. destruct c as [s|s|s|s]; simpl in *.
  - rewrite FILO_get_refines, seq_assoc, Hv by done. by exists (FILO s).
  - rewrite FIFO_get_refines, seq_assoc, Hv by done. by exists (FIFO s).
  - pose proof (LRU_get_refines s k Hwf) as Href.
    rewrite seq_assoc, Hv in Href by done.
    destruct Href as (s' & Heq & Hwf' & Hcap & Hes).
    exists (LRU s'). rewrite Heq. simpl.
    split; [done|]. split; [done|]. split; [done|].
    unfold seq_size.
    rewrite <- (seq_wf_entries_length s' Hwf'), <- (seq_wf_entries_length s Hwf).
    rewrite Hes. unfold LRU_get_entries.
    rewrite seq_assoc, Hv by done. simpl. apply without_length.
    + by apply seq_keys_NoDup.
    + apply seq_indexed_keys; [done|].
      destruct (m_hashmap s !! k); [eauto|done].
  - destruct (LFUCache.m_hashmap s !! k) as [a|] eqn:Hk; [|done].
    simpl in Hv.
    destruct (LFUCache.m_nodes s !! a) as [nd|] eqn:Hnd; [|done].
    injection Hv as <-.
    pose proof (Hroom a nd eq_refl Hnd) as Hfreq.
    assert (LFUCache.m_freq nd < INT_MAX) as Hlt by lia.
    rewrite (LFU_get_stored s k a nd (proj1 Hwf) Hk Hnd Hlt). simpl.
    eexists. split; [done|]. split; [by apply LFU_promote_wf|].
    split; [done|]. by apply LFU_promote_size.
Qed.

End cache_specs.

(** ** Runs on an LFU cache are defined while the counters fit in int *)

Section lfu_runs.
Context {K V : Type} `{Countable K}.
Implicit Types (s : LFUCache.t K V) (k : K) (v : V).

Lemma freq_bound_promote B s k v a nd :
  freq_bound B s → LFUCache.m_nodes s !! a = Some nd →
  freq_bound (B + 1) (promote k v a (LFUCache.m_freq nd) s).
Proof.
  intros Hb Hnd b nd'. unfold promote. simpl.
  intros [[_ <-]|[_ [_ Hb']%lookup_delete_Some]]%lookup_insert_Some; simpl.
  - specialize (Hb a nd Hnd). simpl in Hb. lia.
  - specialize (Hb b nd' Hb'). simpl in Hb. lia.
Qed.

Lemma LFU_step_defined B s (x : call) :
  LFU_wf s → freq_bound B s → 0 ≤ B < INT_MAX →
  ∃ o s', step x (LFU s) = Some (o, LFU s') ∧ freq_bound (B + 1) s'.
Proof.
  intros Hwf Hb HB.
  assert (freq_bound (B + 1) s) as Hb1.
  { intros b nd Hnd. specialize (Hb b nd Hnd). simpl in *. lia. }
  destruct x as [k|k v| |n]; simpl.
  - destruct (LFUCache.m_hashmap s !! k) as [a|] eqn:Hk.
    + destruct (LFU_wf_node s k a (proj1 Hwf) Hk) as (nd & Hnd & _).
      pose proof (Hb a nd Hnd) as Hle. simpl in Hle.
      rewrite (LFU_get_stored s k a nd (proj1 Hwf) Hk Hnd) by lia. simpl.
      eexists _, _. split; [done|]. by apply freq_bound_promote.
    + rewrite LFU_get_absent by done. simpl. by eexists _, _.
  - destruct (decide (LFUCache.m_capacity s = 0%nat)) as [Hcap|Hcap].
    { unfold LFUCache.put. rewrite decide_True by done. simpl. by eexists _, _. }
    destruct (LFUCache.m_hashmap s !! k) as [a|] eqn:Hk.
    + destruct (LFU_wf_node s k a (proj1 Hwf) Hk) as (nd & Hnd & _).
      pose proof (Hb a nd Hnd) as Hle. simpl in Hle.
      rewrite (LFU_put_stored s k v a nd (proj1 Hwf) Hcap Hk Hnd) by lia.
      simpl. eexists _, _. split; [done|]. by apply freq_bound_promote.
    + destruct (LFU_put_new s k v Hwf Hcap Hk)
        as (a & s' & -> & _ & _ & _ & _ & _ & Hnodes & _).
      simpl. eexists _, _. split; [done|].
      intros b nd Hnd. destruct (Hnodes b nd Hnd) as [->|Hold]; simpl; [lia|].
      by apply (Hb1 b nd).
  - eexists _, _. split; [done|]. apply map_Forall_empty.
  - by eexists _, _.
Qed.

Lemma LFU_run_defined B s (xs : list call) :
  LFU_wf s → freq_bound B s → 0 ≤ B → B + Z.of_nat (length xs) ≤ INT_MAX →
  ∃ os s', run xs (LFU s) = Some (os, LFU s').
Proof.
  revert B s. induction xs as [|x xs IH]; intros B s Hwf Hb HB Hlen.
  - by eexists _, _.
  - rewrite length_cons in Hlen.
    destruct (LFU_step_defined B s x Hwf Hb) as (o & s1 & Hstep & Hb1); [lia|].
    destruct (IH (B + 1) s1) as (os & s' & Hrun); [|done|lia|lia|].
    { by apply (cache_wf_step x (LFU s) o (LFU s1)). }
    exists (o :: os), s'. cbn [run]. rewrite Hstep. simpl. by rewrite Hrun.
Qed.

Lemma run_LFU (xs : list call) s os c :
  run xs (LFU s) = Some (os, c) → ∃ s', c = LFU s'.
Proof.
  revert s os. induction xs as [|x xs IH]; intros s os; simpl.
  - intros [= <- <-]. eauto.
  - destruct (step x (LFU s)) as [[o c1]|] eqn:Hstep; simpl; [|done].
    destruct (run xs c1) as [[os' c2]|] eqn:Hrun; simpl; [|done].
    intros [= <- <-].
    assert (∃ s1, c1 = LFU s1) as [s1 ->]; [|by eapply IH].
    destruct x as [k|k v| |n]; simpl in Hstep.
    + destruct (LFUCache.get k s); simpl in Hstep; simplify_eq; eauto.
    + destruct (LFUCache.put k v s); simpl in Hstep; simplify_eq; eauto.
    + simplify_eq. eauto.
    + simplify_eq. eauto.
Qed.

End lfu_runs.

(** * The claims *)

Section claims.
Context {K V : Type} `{Countable K}.
Implicit Types (c : cache K V) (k : K) (v : V).

(** C10.  When [get] fails with KeyNotFound, which it does exactly when
    the key is not in the index map, the object it was called on is left
    exactly as it was: stored keys and values, their order, the
    frequencies, [m_minimalFreq] and the capacity. *)
Theorem get_KeyNotFound_changes_nothing c k :
  (cache_index c !! k = None → get k c = Throw c)
  ∧ (∀ c', get k c = Throw c' → cache_index c !! k = None ∧ c' = c).
Proof.
  split; [apply get_absent|]. intros c' Hget. split.
  - by apply (get_throw_absent c k c').
  - by apply (get_throw_same c k).
Qed.

(** C9.  A cache of any policy constructed with capacity 0, whose capacity
    is never changed, goes through every sequence of get, put and clear
    without storing a key: every [get] fails with KeyNotFound, the object
    stays as constructed, its size is 0 and [get] on any key fails. *)
Theorem capacity_zero_stores_nothing (p : policy) (xs : list call) :
  Forall (λ x, is_setCapacity x = false) xs →
  run xs (construct (K := K) (V := V) p 0)
  = Some (seen_when_empty <$> xs, construct p 0)
  ∧ cache_size (construct (K := K) (V := V) p 0) = 0%nat
  ∧ ∀ k, get k (construct (K := K) (V := V) p 0) = Throw (construct p 0).
Proof.
  intros Hxs. split; [|split].
  - induction Hxs as [|x xs Hx _ IH]; [done|].
    cbn [run fmap list_fmap].
    assert (step x (construct p 0) = Some (seen_when_empty x, construct p 0))
      as ->.
    { destruct x as [k|k v| |n]; [| | |done]; by destruct p. }
    simpl. by rewrite IH.
  - by destruct p.
  - intros k. by destruct p.
Qed.


(** C7 (as amended).  For a cache of any policy with capacity at least 1,
    [put k v] followed at once by [get k] returns [v]; for the LFU cache
    this needs room for the two increments of the [int] access counter of
    [k].  With capacity 0, [put k v] leaves the cache as it is, so the
    [get k] that follows fails with KeyNotFound when [k] was not stored
    before, and returns the value stored before when it was (a cache whose
    capacity was set to 0 while it held [k]). *)
Theorem put_then_get_returns_value c k v :
  cache_wf c → counter_room 2 k c →
  (getCapacity c ≠ 0%nat →
   ∃ c1 c2, put k v c = Some c1 ∧ get k c1 = Return v c2)
  ∧ (getCapacity c = 0%nat →
     put k v c = Some c
     ∧ (cache_index c !! k = None → get k c = Throw c)
     ∧ (∀ v0, stored_value k c = Some v0 → ∃ c2, get k c = Return v0 c2)).
Proof.
  intros Hwf Hroom.
  destruct (put_spec c k v 1 Hwf Hroom)
    as (c1 & Hput & Hwf1 & _ & _ & Hsame & Hv); [done|by unfold INT_MAX|].
  split.
  - intros Hcap. destruct (Hv Hcap) as [Hv1 Hroom1].
    destruct (get_spec c1 k v Hwf1 Hv1 Hroom1) as (c2 & Hget & _).
    by exists c1, c2.
  - intros Hcap. split; [by rewrite Hput, (Hsame Hcap)|]. split.
    + apply get_absent.
    + intros v0 Hv0.
      assert (counter_room 1 k c) as Hroom0.
      { destruct c as [s|s|s|s]; simpl in *; try done.
        intros a nd Ha Hnd. specialize (Hroom a nd Ha Hnd). lia. }
      destruct (get_spec c k v0 Hwf Hv0 Hroom0) as (c2 & Hget & _).
      by exists c2.
Qed.






(** C2.  Every sequence of calls on an LFU cache since its construction
    (get, put, clear, and any setCapacity as well) leaves no empty list in
    the frequency map, and, when something is stored, leaves
    [m_minimalFreq] at the least frequency of the map.  When nothing is
    stored [m_minimalFreq] is not constrained, and in any case [put] of a
    new key sets it to 1.  A sequence of at most [INT_MAX] calls has no
    undefined step. *)
Theorem LFU_minimalFreq_is_least (capacity : nat) (xs : list call) :
  (Z.of_nat (length xs) ≤ INT_MAX →
   is_Some (run xs (LFU (LFUCache.new (K := K) (V := V) capacity))))
  ∧ (∀ os c,
       run xs (LFU (LFUCache.new (K := K) (V := V) capacity)) = Some (os, c) →
       ∃ s, c = LFU s
         ∧ (∀ f l, LFUCache.m_freqHashmap s !! f = Some l → l ≠ [])
         ∧ (LFUCache.size s ≠ 0%nat →
            is_Some (LFUCache.m_freqHashmap s !! LFUCache.m_minimalFreq s)
            ∧ ∀ f, is_Some (LFUCache.m_freqHashmap s !! f) →
                   LFUCache.m_minimalFreq s ≤ f)
         ∧ (∀ k v, LFUCache.m_capacity s ≠ 0%nat →
                   LFUCache.m_hashmap s !! k = None →
                   ∃ s', LFUCache.put k v s = Some s'
                         ∧ LFUCache.m_minimalFreq s' = 1)).
Proof.
  split.
  - intros Hlen.
    destruct (LFU_run_defined 0 (LFUCache.new capacity) xs)
      as (os & s' & ->); [apply LFU_wf_new|apply map_Forall_empty|done|lia|].
    eauto.
  - intros os c Hrun.
    destruct (run_LFU xs _ os c Hrun) as [s ->]. exists s. split; [done|].
    pose proof (cache_wf_run xs (LFU (LFUCache.new capacity)) os (LFU s)
                  (LFU_wf_new capacity) Hrun) as Hwf. simpl in Hwf. destruct Hwf as [[Hidx [Hb1 Hb2]] Hmin].
    split; [|split].
    + intros f l Hl. by destruct (Hb2 f l Hl).
    + intros Hsize. destruct Hmin as [Hsome Hle].
      { intros Hnil. apply Hsize. unfold LFUCache.size.
        rewrite (indexed_size LFUCache.m_key _ _ Hidx), Hnil.
        apply map_size_empty. }
      split; [done|]. intros f [l Hl]. by apply (Hle f l).
    + intros k v Hcap Hk.
      destruct (LFU_put_new s k v) as (a & s' & Hput & _ & _ & Hmf & _);
        [done..|].
      by exists s'.
Qed.

End claims.

(** * Caches of integers: the scenarios *)

Section scenarios.

(** A decidable fact about given caches is settled by evaluation. *)
Ltac by_evaluation := refine (bool_decide_unpack _ _); vm_compute; exact I.

(** C3.  The LFU cache of capacity 2 under
    [put(1,1); put(2,2); get(1); put(3,3); get(2); get(3); put(4,4);
     get(1); get(3); get(4)]:
    [get(1)] returns 1; [put(3,3)] finds key 2 alone in the bucket of the
    least frequency and evicts it, so [get(2)] fails and [get(3)] returns
    3; [put(4,4)] then finds keys 3 and 1 in the bucket of frequency 2,
    key 1 at the back, and evicts key 1, so [get(1)] fails, [get(3)]
    returns 3 and [get(4)] returns 4. *)
Theorem LFU_scenario :
  let c0 : cache Z Z := construct PLFU 2 in
  fst <$> run [Put 1 1; Put 2 2; Get 1; Put 3 3; Get 2; Get 3; Put 4 4;
               Get 1; Get 3; Get 4] c0
  = Some [Done; Done; Value 1; Done; KeyNotFound; Value 3; Done;
          KeyNotFound; Value 3; Value 4]
  ∧ (∃ os s, run [Put 1 1; Put 2 2; Get 1] c0 = Some (os, LFU s)
             ∧ LFUCache.m_minimalFreq s = 1
             ∧ LFUCache.bucket_entries 1 s = [LFUCache.mkNode 2 2 1]
             ∧ LFUCache.bucket_entries 2 s = [LFUCache.mkNode 1 1 2])
  ∧ (∃ os s, run [Put 1 1; Put 2 2; Get 1; Put 3 3] c0 = Some (os, LFU s)
             ∧ dom (LFUCache.m_hashmap s) = {[1; 3]})
  ∧ (∃ os s, run [Put 1 1; Put 2 2; Get 1; Put 3 3; Get 2; Get 3] c0
             = Some (os, LFU s)
             ∧ LFUCache.m_minimalFreq s = 2
             ∧ LFUCache.bucket_entries 2 s
               = [LFUCache.mkNode 3 3 2; LFUCache.mkNode 1 1 2])
  ∧ (∃ os s, run [Put 1 1; Put 2 2; Get 1; Put 3 3; Get 2; Get 3; Put 4 4] c0
             = Some (os, LFU s)
             ∧ dom (LFUCache.m_hashmap s) = {[3; 4]}).
Proof.
  intros c0. split; [by vm_compute|].
  repeat split; eexists _, _; (split; [by vm_compute|]); by vm_compute.
Qed.




(** C7 as stated fails: with capacity 0, [put(1,1)] stores nothing and
    the [get(1)] that follows fails. *)
Lemma put_get_capacity_zero :
  fst <$> run [Put 1 1; Get 1] (construct PFIFO 0 : cache Z Z)
  = Some [Done; KeyNotFound].
Proof. by vm_compute. Qed.


(** ** The general statements at given caches *)


Lemma LFU_minimalFreq_is_least_witness :
  let xs : list call := [Put 1 1; Put 2 2; Get 1; Put 3 3; Get 3] in
  Z.of_nat (length xs) ≤ INT_MAX
  ∧ is_Some (run xs (LFU (LFUCache.new (K := Z) (V := Z) 2)))
  ∧ ∃ s, after xs (LFU (LFUCache.new 2)) = LFU s
         ∧ (∀ f l, LFUCache.m_freqHashmap s !! f = Some l → l ≠ [])
         ∧ (LFUCache.size s ≠ 0%nat →
            is_Some (LFUCache.m_freqHashmap s !! LFUCache.m_minimalFreq s)
            ∧ ∀ f, is_Some (LFUCache.m_freqHashmap s !! f) →
                   LFUCache.m_minimalFreq s ≤ f)
         ∧ (∀ k v, LFUCache.m_capacity s ≠ 0%nat →
                   LFUCache.m_hashmap s !! k = None →
                   ∃ s', LFUCache.put k v s = Some s'
                         ∧ LFUCache.m_minimalFreq s' = 1).
Proof.
  intros xs.
  assert (Z.of_nat (length xs) ≤ INT_MAX) as Hlen by (by vm_compute).
  destruct (LFU_minimalFreq_is_least (K := Z) (V := Z) 2 xs) as [Hdef Hinv].
  split; [done|]. split; [by apply Hdef|].
  destruct (run xs (LFU (LFUCache.new 2))) as [[os c]|] eqn:Hrun.
  - destruct (Hinv os c eq_refl) as (s & -> & Hs). exists s. split; [|done].
    unfold after. by rewrite Hrun.
  - by destruct (Hdef Hlen).
Defined.




Lemma put_then_get_returns_value_witness :
  let c := after [Put 1 1; Put 2 2; Get 1] (construct PLFU 2) in
  let c0 : cache Z Z := after [Put 1 1; SetCapacity 0] (construct PFIFO 2) in
  cache_wf c ∧ counter_room 2 1 c ∧ getCapacity c ≠ 0%nat
  ∧ cache_wf c0 ∧ counter_room 2 1 c0 ∧ counter_room 2 2 c0
  ∧ getCapacity c0 = 0%nat
  ∧ cache_index c0 !! 2 = None ∧ stored_value 1 c0 = Some 1
  ∧ (∃ c1 c2, put 1 9 c = Some c1 ∧ get 1 c1 = Return 9 c2)
  ∧ put 2 9 c0 = Some c0 ∧ get 2 c0 = Throw c0
  ∧ put 1 9 c0 = Some c0 ∧ ∃ c2, get 1 c0 = Return 1 c2.
Proof.
  intros c c0.
  assert (cache_wf c) as Hwf by by_evaluation.
  assert (counter_room 2 1 c) as Hroom by by_evaluation.
  assert (getCapacity c ≠ 0%nat) as Hcap by (by vm_compute).
  assert (cache_wf c0) as Hwf0 by by_evaluation.
  assert (counter_room 2 1 c0) as Hroom1 by done.
  assert (counter_room 2 2 c0) as Hroom2 by done.
  assert (getCapacity c0 = 0%nat) as Hcap0 by (by vm_compute).
  assert (cache_index c0 !! 2 = None) as Hnew by (by vm_compute).
  assert (stored_value 1 c0 = Some 1) as Hold by (by vm_compute).
  do 3 (split; [done|]). do 4 (split; [done|]). do 2 (split; [done|]).
  split; [exact (proj1 (put_then_get_returns_value c 1 9 Hwf Hroom) Hcap)|].
  destruct (proj2 (put_then_get_returns_value c0 2 9 Hwf0 Hroom2) Hcap0)
    as (Hput2 & Hget2 & _).
  destruct (proj2 (put_then_get_returns_value c0 1 9 Hwf0 Hroom1) Hcap0)
    as (Hput1 & _ & Hget1).
  split; [exact Hput2|]. split; [exact (Hget2 Hnew)|].
  split; [exact Hput1|]. exact (Hget1 1 Hold).
Defined.


Lemma capacity_zero_stores_nothing_witness :
  let xs : list call := [Put 1 1; Get 1; Clear; Put 2 2; Put 1 3; Get 2] in
  Forall (λ x, is_setCapacity x = false) xs
  ∧ run xs (construct (K := Z) (V := Z) PLFU 0)
    = Some (seen_when_empty <$> xs, construct PLFU 0)
  ∧ cache_size (construct (K := Z) (V := Z) PLFU 0) = 0%nat
  ∧ ∀ k, get k (construct (K := Z) (V := Z) PLFU 0)
         = Throw (construct PLFU 0).
Proof.
  intros xs.
  assert (Forall (λ x, is_setCapacity x = false) xs) as Hxs
    by (repeat constructor).
  split; [done|].
  exact (capacity_zero_stores_nothing PLFU xs Hxs).
Defined.

Lemma get_KeyNotFound_changes_nothing_witness :
  let c := after [Put 1 1; Put 2 2; Get 1] (construct PLFU 2) in
  cache_index c !! 7 = None
  ∧ get 7 c = Throw c
  ∧ (∀ c', get 7 c = Throw c' → cache_index c !! 7 = None ∧ c' = c).
Proof.
  intros c.
  assert (cache_index c !! 7 = None) as Hk by (by vm_compute).
  split; [done|]. split.
  - by apply (proj1 (get_KeyNotFound_changes_nothing c 7)).
  - exact (proj2 (get_KeyNotFound_changes_nothing c 7)).
Defined.

End scenarios.

(** * Further properties *)

(** ** The hash of the tests *)

Section hash_facts.

Lemma uint64_range x : 0 ≤ uint64 x < 2 ^ 64.
Proof. unfold uint64. apply Z.mod_pos_bound. done. Qed.

Lemma uint64_small x : 0 ≤ x < 2 ^ 64 → uint64 x = x.
Proof. unfold uint64. intros. by apply Z.mod_small. Qed.

Lemma high_bits_false x i : 0 ≤ x < 2 ^ 64 → 64 ≤ i → Z.testbit x i = false.
Proof.
  intros Hx Hi. rewrite <- (uint64_small x Hx). unfold uint64.
  apply Z.mod_pow2_bits_high. lia.
Qed.

Lemma range_of_bits x :
  0 ≤ x → (∀ i, 64 ≤ i → Z.testbit x i = false) → 0 ≤ x < 2 ^ 64.
Proof.
  intros Hx Hbits. split; [done|].
  destruct (decide (x < 2 ^ 64)) as [|Hge]; [done|]. exfalso.
  assert (0 < x) as Hpos by lia.
  pose proof (Z.bit_log2 x Hpos) as Hlog.
  rewrite Hbits in Hlog; [done|].
  apply Z.log2_le_pow2; lia.
Qed.

(** [x ^ (x >> s)] *)
Lemma xorshift_range x s :
  0 ≤ s → 0 ≤ x < 2 ^ 64 → 0 ≤ Z.lxor x (Z.shiftr x s) < 2 ^ 64.
Proof.
  intros Hs Hx. apply range_of_bits.
  - apply Z.lxor_nonneg. split; intros _; [|lia]. apply Z.shiftr_nonneg. lia.
  - intros i Hi. rewrite Z.lxor_spec, Z.shiftr_spec by lia.
    by rewrite !(high_bits_false x) by lia.
Qed.

Lemma xorshift_inj x y s :
  1 ≤ s → 0 ≤ x < 2 ^ 64 → 0 ≤ y < 2 ^ 64 →
  Z.lxor x (Z.shiftr x s) = Z.lxor y (Z.shiftr y s) → x = y.
Proof.
  intros Hs Hx Hy Heq.
  assert (∀ m : nat, ∀ i, 64 - Z.of_nat m ≤ i → 0 ≤ i →
          Z.testbit x i = Z.testbit y i) as Hbits.
  { induction m as [|m IH]; intros i Hi Hi0.
  - by rewrite !high_bits_false by lia.
  - pose proof (f_equal (λ z, Z.testbit z i) Heq) as Hi'. simpl in Hi'.
    rewrite !Z.lxor_spec, !Z.shiftr_spec in Hi' by lia.
    rewrite (IH (i + s)) in Hi' by lia.
    by destruct (Z.testbit x i), (Z.testbit y i), (Z.testbit y (i + s)). }
  apply Z.bits_inj'. intros i Hi. apply (Hbits 64%nat); lia.
Qed.

(** [x * c] for an odd [c], whose inverse modulo [2^64] is [d] *)
Lemma mul_odd_inj c d x y :
  uint64 (c * d) = 1 → 0 ≤ x < 2 ^ 64 → 0 ≤ y < 2 ^ 64 →
  uint64 (x * c) = uint64 (y * c) → x = y.
Proof.
  unfold uint64. intros Hcd Hx Hy Heq.
  assert (∀ z, 0 ≤ z < 2 ^ 64 → (z * c mod 2 ^ 64 * d) mod 2 ^ 64 = z) as Hinv.
  { intros z Hz. rewrite Z.mul_mod_idemp_l by done.
    rewrite <- Z.mul_assoc, <- Z.mul_mod_idemp_r, Hcd by done.
    rewrite Z.mul_1_r. by apply Z.mod_small. }
  rewrite <- (Hinv x Hx), <- (Hinv y Hy). by rewrite Heq.
Qed.

Lemma add_const_inj c x y :
  0 ≤ x < 2 ^ 64 → 0 ≤ y < 2 ^ 64 → uint64 (x + c) = uint64 (y + c) → x = y.
Proof.
  unfold uint64. intros Hx Hy Heq.
  assert ((x - y) mod 2 ^ 64 = 0) as Hdiff.
  { replace (x - y) with ((x + c) - (y + c)) by lia.
    rewrite Zminus_mod, Heq, Z.sub_diag. done. }
  apply Z.mod_divide in Hdiff as [q Hq]; [|done]. lia.
Qed.

Lemma splitmix64_range x : 0 ≤ splitmix64 x < 2 ^ 64.
Proof. unfold splitmix64. apply xorshift_range; [done|apply uint64_range]. Qed.

Lemma splitmix64_inj x y :
  0 ≤ x < 2 ^ 64 → 0 ≤ y < 2 ^ 64 → splitmix64 x = splitmix64 y → x = y.
Proof.
  unfold splitmix64. intros Hx Hy Heq.
  apply xorshift_inj in Heq; [|done|apply uint64_range..].
  apply (mul_odd_inj _ 0x319642b2d24d8ec3) in Heq;
    [|by vm_compute|apply xorshift_range; [done|apply uint64_range]..].
  apply xorshift_inj in Heq; [|done|apply uint64_range..].
  apply (mul_odd_inj _ 0x96de1b173f119089) in Heq;
    [|by vm_compute|apply xorshift_range; [done|apply uint64_range]..].
  apply xorshift_inj in Heq; [|done|apply uint64_range..].
  by apply add_const_inj in Heq.
Qed.

(** X13.  The hash of the tests, for any value of [FIXED_RANDOM], sends
    64-bit keys to 64-bit values and never sends two keys to the same
    value. *)
Theorem custom_hash_injective (r x y : Z) :
  0 ≤ x < 2 ^ 64 → 0 ≤ y < 2 ^ 64 →
  0 ≤ custom_hash r x < 2 ^ 64
  ∧ (custom_hash r x = custom_hash r y → x = y).
Proof.
  intros Hx Hy. split; [apply splitmix64_range|].
  unfold custom_hash. intros Heq.
  apply splitmix64_inj in Heq; [|apply uint64_range..].
  by apply add_const_inj in Heq.
Qed.

Lemma custom_hash_injective_witness :
  0 ≤ 1 < 2 ^ 64 ∧ 0 ≤ 2 < 2 ^ 64
  ∧ 0 ≤ custom_hash 77 1 < 2 ^ 64
  ∧ (custom_hash 77 1 = custom_hash 77 2 → 1 = 2).
Proof.
  assert (0 ≤ 1 < 2 ^ 64) as H1 by (by vm_compute).
  assert (0 ≤ 2 < 2 ^ 64) as H2 by (by vm_compute).
  split; [done|]. split; [done|].
  exact (custom_hash_injective 77 1 2 H1 H2).
Defined.

End hash_facts.

(** ** More on lists of entries *)

Section more_entries.
Context {K V : Type} `{Countable K}.
Implicit Types (es : list (K * V)) (k : K) (v : V).

Lemma assoc_snoc_ne k k' v es :
  k ≠ k' → assoc k' (es ++ [(k, v)]) = assoc k' es.
Proof.
  intros Hne. rewrite assoc_app. destruct (assoc k' es); [done|].
  simpl. by rewrite decide_False.
Qed.

Lemma assoc_removelast k es :
  assoc k (removelast es) = assoc k es ∨ assoc k (removelast es) = None.
Proof.
  destruct es as [|e es _] using rev_ind; [by left|].
  rewrite removelast_last, assoc_app.
  destruct (assoc k es); [by left|by right].
Qed.

Lemma assoc_tail k es :
  NoDup es.*1 → assoc k (tail es) = assoc k es ∨ assoc k (tail es) = None.
Proof.
  destruct es as [|e es]; [by left|]. simpl.
  intros [Hnotin _]%NoDup_cons. case_decide as Hk; [|by left].
  right. apply assoc_None. by rewrite <- Hk.
Qed.

Lemma replace_value_absent k v es : k ∉ es.*1 → replace_value k v es = es.
Proof.
  unfold replace_value. induction es as [|e es IH]; [done|].
  rewrite fmap_cons. intros [Hne Hnotin]%not_elem_of_cons.
  rewrite !fmap_cons, decide_False by done. by rewrite IH.
Qed.

Lemma FILO_put_entries_other capacity k v k' es :
  k ≠ k' →
  kept_or_evicted capacity k k' es (FILO_put_entries capacity k v es).
Proof.
  intros Hne. unfold kept_or_evicted, FILO_put_entries.
  destruct (decide (capacity = 0%nat)); [by left|].
  destruct (decide (k ∈ es.*1)).
  { left. by rewrite assoc_replace_value, decide_False. }
  rewrite assoc_snoc_ne by done.
  destruct (decide (length es = capacity)); [|by left].
  destruct (assoc_removelast k' es) as [->| ->]; [by left|by right].
Qed.

Lemma FIFO_put_entries_other capacity k v k' es :
  NoDup es.*1 → k ≠ k' →
  kept_or_evicted capacity k k' es (FIFO_put_entries capacity k v es).
Proof.
  intros Hnd Hne. unfold kept_or_evicted, FIFO_put_entries.
  destruct (decide (capacity = 0%nat)); [by left|].
  destruct (decide (k ∈ es.*1)).
  { left. by rewrite assoc_replace_value, decide_False. }
  rewrite assoc_snoc_ne by done.
  destruct (decide (length es = capacity)); [|by left].
  destruct (assoc_tail k' es Hnd) as [->| ->]; [by left|by right].
Qed.

Lemma LRU_put_entries_other capacity k v k' es :
  k ≠ k' →
  kept_or_evicted capacity k k' es (LRU_put_entries capacity k v es).
Proof.
  intros Hne. unfold kept_or_evicted, LRU_put_entries.
  destruct (decide (capacity = 0%nat)); [by left|].
  destruct (decide (k ∈ es.*1)).
  { left. simpl. by rewrite decide_False, assoc_without, decide_False. }
  simpl. rewrite decide_False by done.
  destruct (decide (length es = capacity)); [|by left].
  destruct (assoc_removelast k' es) as [->| ->]; [by left|by right].
Qed.

Lemma evicts_one_last k v es e :
  NoDup (es ++ [e]).*1 → k ∉ (es ++ [e]).*1 →
  evicts_one k (es ++ [e]) (es ++ [(k, v)])
  ∧ evicts_one k (es ++ [e]) ((k, v) :: es).
Proof.
  rewrite fmap_app. simpl. intros Hnd Hnew.
  apply NoDup_app in Hnd as (_ & Hout & _).
  assert (k ≠ e.1) as Hek.
  { intros Heq. apply Hnew. rewrite elem_of_app, list_elem_of_singleton.
    by right. }
  assert (assoc e.1 es = None) as He.
  { apply assoc_None. intros Hin. apply (Hout _ Hin).
    by apply list_elem_of_singleton. }
  assert (is_Some (assoc e.1 (es ++ [e]))) as Hin.
  { rewrite assoc_app, He. simpl. rewrite decide_True by done. eauto. }
  assert (∀ k', k' ≠ e.1 → assoc k' (es ++ [e]) = assoc k' es) as Hrest.
  { intros k' Hne. destruct e as [ke ve]. apply assoc_snoc_ne.
    simpl in Hne. congruence. }
  split; exists e.1; (split; [congruence|]); (split; [done|]); split.
  - by rewrite assoc_snoc_ne.
  - intros k' Hk Hk0. rewrite assoc_snoc_ne by congruence. by rewrite Hrest.
  - simpl. by rewrite decide_False.
  - intros k' Hk Hk0. simpl. rewrite decide_False by congruence.
    by rewrite Hrest.
Qed.

Lemma evicts_one_first k v e es :
  NoDup (e :: es).*1 → k ∉ (e :: es).*1 →
  evicts_one k (e :: es) (es ++ [(k, v)]).
Proof.
  rewrite fmap_cons. intros [He _]%NoDup_cons [Hek _]%not_elem_of_cons.
  exists e.1. split; [congruence|]. split.
  { simpl. rewrite decide_True by done. eauto. }
  split.
  - rewrite assoc_snoc_ne by done. by apply assoc_None.
  - intros k' Hk Hk0. rewrite assoc_snoc_ne by congruence.
    simpl. by rewrite decide_False by congruence.
Qed.

Lemma FILO_put_entries_evicts capacity k v es :
  capacity ≠ 0%nat → NoDup es.*1 → k ∉ es.*1 → length es = capacity →
  evicts_one k es (FILO_put_entries capacity k v es).
Proof.
  intros Hcap Hnd Hnew Hlen. unfold FILO_put_entries.
  rewrite decide_False by done. rewrite decide_False by done.
  rewrite decide_True by done.
  destruct es as [|e es _] using rev_ind; [simpl in Hlen; congruence|].
  rewrite removelast_last. by apply evicts_one_last.
Qed.

Lemma FIFO_put_entries_evicts capacity k v es :
  capacity ≠ 0%nat → NoDup es.*1 → k ∉ es.*1 → length es = capacity →
  evicts_one k es (FIFO_put_entries capacity k v es).
Proof.
  intros Hcap Hnd Hnew Hlen. unfold FIFO_put_entries.
  rewrite decide_False by done. rewrite decide_False by done.
  rewrite decide_True by done.
  destruct es as [|e es]; [simpl in Hlen; congruence|].
  simpl. by apply evicts_one_first.
Qed.

Lemma LRU_put_entries_evicts capacity k v es :
  capacity ≠ 0%nat → NoDup es.*1 → k ∉ es.*1 → length es = capacity →
  evicts_one k es (LRU_put_entries capacity k v es).
Proof.
  intros Hcap Hnd Hnew Hlen. unfold LRU_put_entries.
  rewrite decide_False by done. rewrite decide_False by done.
  rewrite decide_True by done.
  destruct es as [|e es _] using rev_ind; [simpl in Hlen; congruence|].
  rewrite removelast_last. by apply evicts_one_last.
Qed.

Lemma LRU_get_entries_assoc k k' es :
  assoc k' (LRU_get_entries k es) = assoc k' es.
Proof.
  unfold LRU_get_entries. destruct (assoc k es) as [v|] eqn:Hk; [|done].
  simpl. case_decide as Hkk; [by subst|].
  by rewrite assoc_without, decide_False.
Qed.

End more_entries.

(** ** More on the nodes of the LFU cache *)

Section more_lfu.
Context {K V : Type} `{Countable K}.
Implicit Types (s : LFUCache.t K V) (k : K) (v : V) (f : Z).

Lemma stored_node_value k s :
  LFUCache.m_value <$> stored_node k s = stored_value k (LFU s).
Proof.
  unfold stored_node. simpl. by destruct (LFUCache.m_hashmap s !! k).
Qed.

Lemma stored_node_value_bind k s :
  LFUCache.m_value <$> stored_node k s
  = a ← LFUCache.m_hashmap s !! k; LFUCache.m_value <$> LFUCache.m_nodes s !! a.
Proof. apply stored_node_value. Qed.

Lemma stored_node_promote s k v a n k' f :
  LFU_wf_struct s →
  LFUCache.m_hashmap s !! k = Some a → LFUCache.m_nodes s !! a = Some n →
  stored_node k' (promote k v a f s)
  = if decide (k' = k) then Some (LFUCache.mkNode k v (f + 1))
    else stored_node k' s.
Proof.
  intros Hwf Hk Hn. unfold stored_node, promote. simpl.
  pose proof (alloc_fresh (delete a (LFUCache.m_nodes s))) as Hfresh.
  destruct (decide (k' = k)) as [->|Hne].
  { rewrite lookup_insert_eq. simpl. by rewrite lookup_insert_eq. }
  rewrite lookup_insert_ne by done.
  destruct (LFUCache.m_hashmap s !! k') as [b|] eqn:Hk'; [|done]. simpl.
  destruct (LFU_wf_node s k' b Hwf Hk') as (nb & Hnb & Hkb & _).
  destruct (LFU_wf_node s k a Hwf Hk) as (na & Hna & Hka & _).
  assert (b ≠ a) as Hba by (intros ->; congruence).
  rewrite lookup_insert_ne, lookup_delete_ne; [done|done|].
  intros <-. rewrite lookup_delete_ne in Hfresh by done. congruence.
Qed.

Lemma stored_node_inserted s k v k' :
  LFU_wf_struct s → LFUCache.m_hashmap s !! k = None →
  stored_node k' (LFU_inserted k v s)
  = if decide (k' = k) then Some (LFUCache.mkNode k v 1)
    else stored_node k' s.
Proof.
  intros Hwf Hk. unfold stored_node, LFU_inserted. simpl.
  pose proof (alloc_fresh (LFUCache.m_nodes s)) as Hfresh.
  destruct (decide (k' = k)) as [->|Hne].
  { rewrite lookup_insert_eq. simpl. by rewrite lookup_insert_eq. }
  rewrite lookup_insert_ne by done.
  destruct (LFUCache.m_hashmap s !! k') as [b|] eqn:Hk'; [|done]. simpl.
  destruct (LFU_wf_node s k' b Hwf Hk') as (nb & Hnb & _).
  rewrite lookup_insert_ne; [done|]. intros <-. congruence.
Qed.

Lemma stored_node_evicted s a0 n0 mf fm k' :
  LFU_wf_struct s → LFUCache.m_nodes s !! a0 = Some n0 →
  stored_node k'
    (LFUCache.LFU (LFUCache.m_capacity s) mf
       (delete (LFUCache.m_key n0) (LFUCache.m_hashmap s)) fm
       (delete a0 (LFUCache.m_nodes s)))
  = if decide (k' = LFUCache.m_key n0) then None else stored_node k' s.
Proof.
  intros Hwf Hn0. unfold stored_node. simpl.
  destruct (decide (k' = LFUCache.m_key n0)) as [->|Hne].
  { by rewrite lookup_delete_eq. }
  rewrite lookup_delete_ne by done.
  destruct (LFUCache.m_hashmap s !! k') as [b|] eqn:Hk'; [|done]. simpl.
  destruct (LFU_wf_node s k' b Hwf Hk') as (nb & Hnb & Hkb & _).
  rewrite lookup_delete_ne; [done|]. intros <-. congruence.
Qed.

(** The insertion of [put], as a state. *)
Lemma LFU_insert_state s k v :
  (let '(l, h) :=
     StdList.emplace_front (LFUCache.mkNode k v 1)
       (LFUCache.bucket 1 (LFUCache.m_freqHashmap s)) (LFUCache.m_nodes s) in
   let fm := <[1 := l]> (LFUCache.m_freqHashmap s) in
   b ← StdList.begin (LFUCache.bucket 1 fm);
   Some (LFUCache.LFU (LFUCache.m_capacity s) 1
           (<[k := b]> (LFUCache.m_hashmap s)) fm h))
  = Some (LFU_inserted k v s).
Proof.
  unfold StdList.emplace_front. simpl. by rewrite bucket_insert_eq.
Qed.

(** [put] of a key that is not stored, as a state: with room, the
    insertion; in a full cache, the eviction of the node at the back of the
    bucket of [m_minimalFreq], then the insertion. *)
Lemma LFU_put_new_state s k v :
  LFU_wf s → LFUCache.m_capacity s ≠ 0%nat →
  LFUCache.m_hashmap s !! k = None →
  (LFUCache.size s ≠ LFUCache.m_capacity s →
   LFUCache.put k v s = Some (LFU_inserted k v s))
  ∧ (LFUCache.size s = LFUCache.m_capacity s →
     ∃ a0 n0,
       last (LFUCache.bucket (LFUCache.m_minimalFreq s)
               (LFUCache.m_freqHashmap s)) = Some a0
       ∧ LFUCache.m_nodes s !! a0 = Some n0
       ∧ LFUCache.m_freq n0 = LFUCache.m_minimalFreq s
       ∧ LFUCache.m_hashmap s !! LFUCache.m_key n0 = Some a0
       ∧ let s1 :=
           LFUCache.LFU (LFUCache.m_capacity s) (LFUCache.m_minimalFreq s)
             (delete (LFUCache.m_key n0) (LFUCache.m_hashmap s))
             (unlink a0 (LFUCache.m_minimalFreq s) (LFUCache.m_freqHashmap s))
             (delete a0 (LFUCache.m_nodes s)) in
         LFU_wf_struct s1
         ∧ LFUCache.put k v s = Some (LFU_inserted k v s1)).
Proof.
  intros Hwf Hcap Hk. unfold LFUCache.put, LFUCache.size.
  rewrite decide_False by done. rewrite Hk. split.
  - intros Hroom. rewrite decide_False by done. simpl.
    apply LFU_insert_state.
  - intros Hfull. rewrite decide_True by done.
    assert (LFUCache.m_nodes s ≠ ∅) as Hne.
    { intros Hnil. rewrite (LFU_wf_size s (proj1 Hwf)), Hnil in Hfull.
      rewrite map_size_empty in Hfull. done. }
    destruct (LFU_evict_spec s Hwf Hne)
      as (a0 & n0 & s1 & Hlast & Hn0 & Hf0 & Heq & Hs1 & Hwf1 & Hk0).
    exists a0, n0. do 4 (split; [done|]).
    cbv zeta in Heq |- *. rewrite Heq. simpl. rewrite <- Hs1.
    split; [done|]. apply LFU_insert_state.
Qed.

End more_lfu.

(** ** What calls keep, for every policy *)

Section more_cache.
Context {K V : Type} `{Countable K}.
Implicit Types (c : cache K V) (k : K) (v : V).

Lemma get_Return_spec c k v c' :
  cache_wf c → get k c = Return v c' →
  stored_value k c = Some v
  ∧ cache_wf c'
  ∧ getCapacity c' = getCapacity c
  ∧ cache_size c' = cache_size c
  ∧ (∀ k', stored_value k' c' = stored_value k' c).
Proof.
  intros Hwf Hget. destruct c as [s|s|s|s]; simpl in *.
  - rewrite FILO_get_refines in Hget by done. rewrite <- seq_assoc by done.
    destruct (assoc k (seq_entries s)); simpl in Hget; [|done].
    by injection Hget as <- <-.
  - rewrite FIFO_get_refines in Hget by done. rewrite <- seq_assoc by done.
    destruct (assoc k (seq_entries s)); simpl in Hget; [|done].
    by injection Hget as <- <-.
  - pose proof (LRU_get_refines s k Hwf) as Href.
    rewrite <- seq_assoc by done.
    destruct (assoc k (seq_entries s)) as [v0|] eqn:Hassoc.
    + destruct Href as (s' & Heq & Hwf' & Hcap & Hes).
      rewrite Heq in Hget. simpl in Hget. injection Hget as <- <-.
      split; [done|]. split; [done|]. split; [done|]. split.
      * destruct (get_spec (LRU s) k v0 Hwf) as (c2 & Hget2 & _ & _ & Hsize);
          [by simpl; rewrite <- seq_assoc|done|].
        simpl in Hget2. rewrite Heq in Hget2. simpl in Hget2.
        by injection Hget2 as <-.
      * intros k'. simpl. rewrite <- !seq_assoc by done.
        rewrite Hes. apply LRU_get_entries_assoc.
    + by rewrite Href in Hget.
  - destruct (LFUCache.m_hashmap s !! k) as [a|] eqn:Hk.
    + destruct (LFU_wf_node s k a (proj1 Hwf) Hk) as (n & Hn & _).
      destruct (decide (LFUCache.m_freq n < INT_MAX)) as [Hlt|Hmax].
      * rewrite (LFU_get_stored s k a n (proj1 Hwf) Hk Hn Hlt) in Hget.
        simpl in Hget. injection Hget as <- <-.
        split; [cbn [mbind option_bind]; by rewrite Hn|].
        split; [by apply LFU_promote_wf|].
        split; [done|]. split; [by apply LFU_promote_size|].
        intros k'. rewrite <- (stored_node_value k'), <- stored_node_value_bind.
        rewrite (stored_node_promote s k _ a n) by (done || apply Hwf).
        case_decide as Hkk; [|done]. subst k'. simpl.
        unfold stored_node. rewrite Hk. simpl. by rewrite Hn.
      * by rewrite (LFU_get_overflow s k a n (proj1 Hwf) Hk Hn Hmax) in Hget.
    + by rewrite LFU_get_absent in Hget.
Qed.

(** X3.  A [get] that returns a value returns the value stored under the
    key and evicts nothing: the capacity, the number of keys and the value
    stored under every key are as before; a FILO or FIFO cache is not
    changed at all. *)
Theorem get_keeps_contents c k v c' :
  cache_wf c → get k c = Return v c' →
  stored_value k c = Some v
  ∧ getCapacity c' = getCapacity c
  ∧ cache_size c' = cache_size c
  ∧ (∀ k', stored_value k' c' = stored_value k' c)
  ∧ (policy_of c = PFILO ∨ policy_of c = PFIFO → c' = c).
Proof.
  intros Hwf Hget.
  destruct (get_Return_spec c k v c' Hwf Hget) as (Hv & _ & Hcap & Hsize & Hall).
  do 4 (split; [done|]).
  destruct c as [s|s|s|s]; simpl in *; intros [|]; try done.
  - rewrite FILO_get_refines in Hget by done.
    destruct (assoc k (seq_entries s)); simpl in Hget; [|done].
    by injection Hget as _ <-.
  - rewrite FIFO_get_refines in Hget by done.
    destruct (assoc k (seq_entries s)); simpl in Hget; [|done].
    by injection Hget as _ <-.
Qed.

Lemma seq_put_other (s s' : seq_cache K V) capacity k k' es' :
  seq_wf s → seq_wf s' → seq_entries s' = es' → capacity = m_capacity s →
  kept_or_evicted capacity k k' (seq_entries s) es' →
  (a ← m_hashmap s' !! k'; snd <$> m_nodes s' !! a)
  = (a ← m_hashmap s !! k'; snd <$> m_nodes s !! a)
  ∨ ((a ← m_hashmap s' !! k'; snd <$> m_nodes s' !! a) = None
     ∧ m_capacity s ≠ 0%nat ∧ seq_size s = m_capacity s
     ∧ m_hashmap s !! k = None).
Proof.
  intros Hwf Hwf' <- -> Hkept. rewrite <- !seq_assoc by done.
  destruct Hkept as [Heq|(Hnone & Hcap & Hlen & Hk)]; [by left|right].
  split; [done|]. split; [done|]. split.
  - unfold seq_size. by rewrite <- seq_wf_entries_length.
  - rewrite (seq_indexed_keys s k Hwf) in Hk.
    destruct (m_hashmap s !! k); [|done]. exfalso. eauto.
Qed.

Lemma seq_put_evicts (s s' : seq_cache K V) k es' :
  seq_wf s → seq_wf s' → seq_entries s' = es' →
  m_capacity s ≠ 0%nat → seq_size s = m_capacity s →
  m_hashmap s !! k = None →
  (∀ capacity es,
     capacity ≠ 0%nat → NoDup es.*1 → k ∉ es.*1 → length es = capacity →
     es = seq_entries s → capacity = m_capacity s → evicts_one k es es') →
  ∃ k0, k0 ≠ k
        ∧ is_Some (a ← m_hashmap s !! k0; snd <$> m_nodes s !! a)
        ∧ (a ← m_hashmap s' !! k0; snd <$> m_nodes s' !! a) = None
        ∧ ∀ k', k' ≠ k → k' ≠ k0 →
            (a ← m_hashmap s' !! k'; snd <$> m_nodes s' !! a)
            = (a ← m_hashmap s !! k'; snd <$> m_nodes s !! a).
Proof.
  intros Hwf Hwf' <- Hcap Hfull Hk Hev.
  destruct (Hev (m_capacity s) (seq_entries s))
    as (k0 & Hk0 & Hin & Hout & Hrest); try done.
  - by apply seq_keys_NoDup.
  - rewrite (seq_indexed_keys s k Hwf), Hk. by intros [? ?].
  - by rewrite seq_wf_entries_length.
  - exists k0. rewrite <- !seq_assoc by done. do 3 (split; [done|]).
    intros k' Hne Hne0. rewrite <- !seq_assoc by done. by apply Hrest.
Qed.

(** X4.  [put k v] stores [v] under [k] unless the capacity is 0, when it
    leaves the cache as it is.  Under the other keys it changes nothing,
    except that it evicts exactly one of them when [k] is new, the capacity
    is not 0 and the number of keys equals the capacity: that key was
    stored and no longer is, every further key keeps its value.  The number
    of keys grows by one when [k] is new and nothing is evicted, and stays
    as it is otherwise. *)
Theorem put_keeps_other_keys c k v :
  cache_wf c → counter_room 1 k c →
  ∃ c', put k v c = Some c'
        ∧ getCapacity c' = getCapacity c
        ∧ cache_size c' = put_size k c
        ∧ (getCapacity c = 0%nat → c' = c)
        ∧ (getCapacity c ≠ 0%nat → stored_value k c' = Some v)
        ∧ (∀ k', k' ≠ k →
             stored_value k' c' = stored_value k' c
             ∨ (stored_value k' c' = None
                ∧ getCapacity c ≠ 0%nat ∧ cache_size c = getCapacity c
                ∧ cache_index c !! k = None))
        ∧ (getCapacity c ≠ 0%nat → cache_size c = getCapacity c →
           cache_index c !! k = None →
           ∃ k0, k0 ≠ k ∧ is_Some (stored_value k0 c)
                 ∧ stored_value k0 c' = None
                 ∧ ∀ k', k' ≠ k → k' ≠ k0 →
                     stored_value k' c' = stored_value k' c).
Proof.
  intros Hwf Hroom.
  destruct (put_spec c k v 0 Hwf Hroom)
    as (c' & Hput & Hwf' & Hcap & Hsize & Hzero & Hv);
    [done|by unfold INT_MAX|].
  exists c'. do 4 (split; [done|]).
  split; [intros Hc0; by destruct (Hv Hc0)|]. clear Hv.
  destruct c as [s|s|s|s]; simpl in *.
  - destruct (FILO_put_refines s k v Hwf) as (s' & Heq & Hwfs & _ & Hes).
    rewrite Heq in Hput. simpl in Hput. injection Hput as <-. simpl. split.
    + intros k' Hne.
      apply (seq_put_other s s' (m_capacity s) k k' _ Hwf Hwfs Hes eq_refl).
      by apply FILO_put_entries_other.
    + intros Hc0 Hfull Hk.
      apply (seq_put_evicts s s' k _ Hwf Hwfs Hes Hc0 Hfull Hk).
      intros capacity es ? ? ? ? -> ->. by apply FILO_put_entries_evicts.
  - destruct (FIFO_put_refines s k v Hwf) as (s' & Heq & Hwfs & _ & Hes).
    rewrite Heq in Hput. simpl in Hput. injection Hput as <-. simpl. split.
    + intros k' Hne.
      apply (seq_put_other s s' (m_capacity s) k k' _ Hwf Hwfs Hes eq_refl).
      apply FIFO_put_entries_other; [by apply seq_keys_NoDup|done].
    + intros Hc0 Hfull Hk.
      apply (seq_put_evicts s s' k _ Hwf Hwfs Hes Hc0 Hfull Hk).
      intros capacity es ? ? ? ? -> ->. by apply FIFO_put_entries_evicts.
  - destruct (LRU_put_refines s k v Hwf) as (s' & Heq & Hwfs & _ & Hes).
    rewrite Heq in Hput. simpl in Hput. injection Hput as <-. simpl. split.
    + intros k' Hne.
      apply (seq_put_other s s' (m_capacity s) k k' _ Hwf Hwfs Hes eq_refl).
      by apply LRU_put_entries_other.
    + intros Hc0 Hfull Hk.
      apply (seq_put_evicts s s' k _ Hwf Hwfs Hes Hc0 Hfull Hk).
      intros capacity es ? ? ? ? -> ->. by apply LRU_put_entries_evicts.
  - destruct (decide (LFUCache.m_capacity s = 0%nat)) as [Hc0|Hc0].
    { rewrite (Hzero Hc0). split; [by left|done]. }
    destruct (LFUCache.m_hashmap s !! k) as [a|] eqn:Hk.
    + destruct (LFU_wf_node s k a (proj1 Hwf) Hk) as (n & Hn & _).
      pose proof (Hroom a n eq_refl Hn) as Hfreq.
      rewrite (LFU_put_stored s k v a n (proj1 Hwf) Hc0 Hk Hn) in Hput by lia.
      simpl in Hput. injection Hput as <-. split; [|done].
      intros k' Hne. left.
      rewrite <- ?stored_node_value, <- ?stored_node_value_bind.
      rewrite (stored_node_promote s k v a n) by (done || apply Hwf).
      by rewrite decide_False.
    + destruct (LFU_put_new_state s k v Hwf Hc0 Hk) as [Hroom' Hfull].
      destruct (decide (LFUCache.size s = LFUCache.m_capacity s)) as [Hf|Hf].
      * destruct (Hfull Hf) as (a0 & n0 & _ & Hn0 & _ & Hidx0 & Hwf1 & Heq).
        rewrite Heq in Hput. simpl in Hput. injection Hput as <-.
        assert (∀ k', k' ≠ k →
                  LFUCache.m_value
                    <$> stored_node k'
                          (LFU_inserted k v
                             (LFUCache.LFU (LFUCache.m_capacity s)
                                (LFUCache.m_minimalFreq s)
                                (delete (LFUCache.m_key n0)
                                   (LFUCache.m_hashmap s))
                                (unlink a0 (LFUCache.m_minimalFreq s)
                                   (LFUCache.m_freqHashmap s))
                                (delete a0 (LFUCache.m_nodes s))))
                  = if decide (k' = LFUCache.m_key n0) then None
                    else LFUCache.m_value <$> stored_node k' s) as Hother.
        { intros k' Hne.
          rewrite stored_node_inserted, decide_False; [|done..|].
          2:{ simpl. by apply lookup_delete_None; right. }
          rewrite stored_node_evicted by (done || apply Hwf).
          by case_decide. }
        assert (LFUCache.m_key n0 ≠ k) as Hvictim by congruence.
        split.
        -- intros k' Hne.
           rewrite <- ?stored_node_value, <- ?stored_node_value_bind.
           rewrite Hother by done. case_decide; [by right|by left].
        -- intros _ _ _. exists (LFUCache.m_key n0). split; [done|]. split.
           { rewrite Hidx0. simpl. rewrite Hn0. simpl. eauto. }
           split.
           { rewrite <- ?stored_node_value, <- ?stored_node_value_bind.
             rewrite Hother by done. by rewrite decide_True. }
           intros k' Hne Hne0.
           rewrite <- ?stored_node_value, <- ?stored_node_value_bind.
           rewrite Hother by done. by rewrite decide_False.
      * rewrite (Hroom' Hf) in Hput. simpl in Hput. injection Hput as <-.
        split; [|done].
        intros k' Hne. left.
        rewrite <- ?stored_node_value, <- ?stored_node_value_bind.
        by rewrite stored_node_inserted, decide_False by (done || apply Hwf).
Qed.

Lemma put_Some_size c k v c' :
  cache_wf c → put k v c = Some c' →
  cache_wf c' ∧ getCapacity c' = getCapacity c ∧ cache_size c' = put_size k c.
Proof.
  intros Hwf Hput.
  assert (counter_room 1 k c ∨ ¬ counter_room 1 k c) as [Hroom|Hno]
    by (destruct (decide (counter_room 1 k c)); eauto).
  - destruct (put_spec c k v 0 Hwf Hroom) as (c2 & Hput2 & ? & ? & ? & _);
      [done|by unfold INT_MAX|].
    rewrite Hput in Hput2. by injection Hput2 as <-.
  - destruct c as [s|s|s|s]; simpl in *; [by destruct Hno..|].
    destruct (decide (LFUCache.m_capacity s = 0%nat)) as [Hc0|Hc0].
    { unfold LFUCache.put in Hput. rewrite decide_True in Hput by done.
      simpl in Hput. injection Hput as <-. unfold put_size. simpl.
      by rewrite decide_True. }
    destruct (LFUCache.m_hashmap s !! k) as [a|] eqn:Hk.
    + destruct (LFU_wf_node s k a (proj1 Hwf) Hk) as (n & Hn & _).
      destruct (decide (LFUCache.m_freq n < INT_MAX)) as [Hlt|Hmax].
      * exfalso. apply Hno. intros a' n' [= <-] Hn'.
        assert (n' = n) as -> by congruence. lia.
      * by rewrite (LFU_put_overflow s k v a n (proj1 Hwf) Hc0 Hk Hn Hmax) in Hput.
    + exfalso. apply Hno. intros a' n' Ha'. congruence.
Qed.

(** X1.  A cache that holds no more keys than its capacity still does after
    any sequence of get, put and clear: the capacity stays and the number
    of keys never exceeds it. *)
Theorem size_stays_within_capacity c (xs : list call) os c' :
  cache_wf c → (cache_size c ≤ getCapacity c)%nat →
  Forall (λ x, is_setCapacity x = false) xs →
  run xs c = Some (os, c') →
  getCapacity c' = getCapacity c ∧ (cache_size c' ≤ getCapacity c')%nat.
Proof.
  intros Hwf Hle Hxs. revert c os Hwf Hle.
  induction Hxs as [|x xs Hx _ IH]; intros c os Hwf Hle; simpl.
  { by intros [= <- <-]. }
  destruct (step x c) as [[o c1]|] eqn:Hstep; simpl; [|done].
  destruct (run xs c1) as [[os' c2]|] eqn:Hrun; simpl; [|done].
  intros [= <- <-].
  assert (cache_wf c1) as Hwf1 by (by eapply cache_wf_step).
  assert (getCapacity c1 = getCapacity c ∧ (cache_size c1 ≤ getCapacity c1)%nat)
    as [Hcap1 Hle1].
  { destruct x as [k|k v| |n]; simpl in Hstep; [| | |done].
    - destruct (get k c) as [v c3|c3|] eqn:Hget; [| |done];
        injection Hstep as <- <-.
      + destruct (get_Return_spec c k v c3 Hwf Hget) as (_ & _ & -> & -> & _).
        done.
      + by rewrite (get_throw_same c k c3 Hget).
    - destruct (put k v c) as [c3|] eqn:Hput; simpl in Hstep; [|done].
      injection Hstep as <- <-.
      destruct (put_Some_size c k v c3 Hwf Hput) as (_ & -> & ->).
      split; [done|]. unfold put_size. repeat case_decide; lia.
    - injection Hstep as <- <-.
      destruct c; simpl; (split; [done|]);
        unfold seq_size, LFUCache.size; simpl; rewrite map_size_empty; lia. }
  destruct (IH c1 os' Hwf1 Hle1 Hrun) as [Hcap2 Hle2].
  split; [congruence|done].
Qed.

(** [clear] takes a cache of any policy back to what its constructor makes
    for the capacity it has now (for the LFU cache [m_minimalFreq] is 0
    again): no key is stored and every [get] fails. *)
Lemma clear_is_as_constructed c :
  clear c = construct (policy_of c) (getCapacity c)
  ∧ cache_size (clear c) = 0%nat
  ∧ ∀ k, get k (clear c) = Throw (clear c).
Proof.
  split; [by destruct c|]. split; [by destruct c|].
  intros k. by destruct c.
Qed.

(** X5.  Once [setCapacity(0)] was called on a cache that stores [k],
    [put k v] no longer overwrites: the cache is left as it is and [get k]
    still returns the old value. *)
Theorem put_after_setCapacity_zero_is_ignored c k v v0 :
  cache_wf c → stored_value k c = Some v0 → counter_room 1 k c →
  put k v (setCapacity 0 c) = Some (setCapacity 0 c)
  ∧ ∃ c', get k (setCapacity 0 c) = Return v0 c'.
Proof.
  intros Hwf Hv Hroom. split.
  - destruct c; simpl; unfold FILOCache.put, FIFOCache.put, LRUCache.put,
      LFUCache.put; simpl; done.
  - destruct (get_spec (setCapacity 0 c) k v0) as (c' & Hget & _);
      [by apply cache_wf_setCapacity|by destruct c|by destruct c|].
    by exists c'.
Qed.

Lemma step_policy c (x : call) o c' :
  step x c = Some (o, c') → policy_of c' = policy_of c.
Proof.
  destruct x as [k|k v| |n]; simpl.
  - destruct c as [s|s|s|s]; simpl;
      [destruct (FILOCache.get k s)|destruct (FIFOCache.get k s)
      |destruct (LRUCache.get k s)|destruct (LFUCache.get k s)];
      simpl; intros; by simplify_eq.
  - destruct c as [s|s|s|s]; simpl;
      [destruct (FILOCache.put k v s)|destruct (FIFOCache.put k v s)
      |destruct (LRUCache.put k v s)|destruct (LFUCache.put k v s)];
      simpl; intros; by simplify_eq.
  - intros [= <- <-]. by destruct c.
  - intros [= <- <-]. by destruct c.
Qed.

(** The classes with one list never reach a step without result. *)
Lemma seq_step_defined c (x : call) :
  cache_wf c → policy_of c ≠ PLFU → is_Some (step x c).
Proof.
  intros Hwf Hp.
  assert (∀ k n, counter_room n k c) as Hroom by (by destruct c).
  destruct x as [k|k v| |n]; simpl; [| |done..].
  - destruct (stored_value k c) as [v|] eqn:Hv.
    + by destruct (get_spec c k v Hwf Hv (Hroom k 1)) as (c' & -> & _).
    + rewrite get_absent; [done|].
      destruct c as [s|s|s|s]; simpl in *; [..|done];
        (destruct (m_hashmap s !! k) as [a|] eqn:Hk; [|done]);
        destruct (indexed_lookup fst _ _ _ _ (proj2 (proj2 Hwf)) Hk)
          as (e & He & _); simpl in Hv; by rewrite He in Hv.
  - destruct (put_spec c k v 0 Hwf (Hroom k _)) as (c' & -> & _);
      [done|by unfold INT_MAX|done].
Qed.

(** X2.  A FILO, FIFO or LRU cache goes through every sequence of calls,
    [setCapacity] included, without a step that has no defined result: no
    iterator is read after its node was erased, and [front], [back] and the
    pops are never applied to an empty list. *)
Theorem one_list_caches_never_undefined (p : policy) (capacity : nat)
    (xs : list call) :
  p ≠ PLFU →
  ∃ os c, run xs (construct (K := K) (V := V) p capacity) = Some (os, c)
          ∧ policy_of c = p ∧ cache_wf c.
Proof.
  intros Hp.
  assert (∀ c : cache K V, cache_wf c → policy_of c ≠ PLFU →
          ∃ os c', run xs c = Some (os, c')
                   ∧ policy_of c' = policy_of c ∧ cache_wf c') as Hgen.
  { induction xs as [|x xs IH]; intros c Hwf Hc; [by eexists _, _|].
    destruct (seq_step_defined c x Hwf Hc) as [[o c1] Hstep].
    pose proof (step_policy c x o c1 Hstep) as Hp1.
    pose proof (cache_wf_step x c o c1 Hwf Hstep) as Hwf1.
    destruct (IH c1 Hwf1) as (os & c2 & Hrun & Hp2 & Hwf2); [congruence|].
    exists (o :: os), c2. cbn [run]. rewrite Hstep. simpl. rewrite Hrun.
    simpl. split; [done|]. split; [congruence|done]. }
  destruct (Hgen (construct p capacity)) as (os & c & Hrun & Hpc & Hwf);
    [apply cache_wf_construct|by destruct p|].
  exists os, c. split; [done|]. split; [|done]. rewrite Hpc. by destruct p.
Qed.

End more_cache.

(** ** More on the classes with one list *)

Section more_seq.
Context {K V : Type} `{Countable K}.
Implicit Types (s : seq_cache K V) (k : K) (v : V).

(** X6.  In an LRU cache of capacity at least 2, the key of the last [get]
    that returned, or of the last [put], is not the one evicted by the next
    [put]: after that [put] it is still stored, with its value, or with the
    new value when the [put] was on the same key. *)
Theorem LRU_most_recent_survives s s1 k v k' v' :
  seq_wf s → (2 ≤ m_capacity s)%nat →
  LRUCache.get k s = Return v s1 ∨ LRUCache.put k v s = Some s1 →
  ∃ s2 s3,
    LRUCache.put k' v' s1 = Some s2
    ∧ LRUCache.get k s2 = Return (if decide (k' = k) then v' else v) s3.
Proof.
  intros Hwf Hcap Hacc.
  assert (seq_wf s1 ∧ m_capacity s1 = m_capacity s
          ∧ ∃ r, seq_entries s1 = (k, v) :: r) as (Hwf1 & Hcap1 & r & Hes1).
  { destruct Hacc as [Hget|Hput].
    - pose proof (LRU_get_refines s k Hwf) as Href.
      destruct (assoc k (seq_entries s)) as [v0|] eqn:Hassoc;
        [|by rewrite Href in Hget].
      destruct Href as (s' & Heq & ? & ? & Hes). rewrite Heq in Hget.
      injection Hget as <- <-. do 2 (split; [done|]).
      unfold LRU_get_entries in Hes. rewrite Hassoc in Hes. eauto.
    - destruct (LRU_put_refines s k v Hwf) as (s' & Heq & ? & ? & Hes).
      rewrite Heq in Hput. injection Hput as <-. do 2 (split; [done|]).
      unfold LRU_put_entries in Hes. rewrite decide_False in Hes by lia.
      destruct (decide (k ∈ (seq_entries s).*1)); eauto. }
  destruct (LRU_put_refines s1 k' v' Hwf1) as (s2 & Hput2 & Hwf2 & _ & Hes2).
  exists s2.
  assert (assoc k (seq_entries s2) = Some (if decide (k' = k) then v' else v))
    as Hassoc.
  { rewrite Hes2, Hes1. unfold LRU_put_entries.
    rewrite decide_False by lia.
    destruct (decide (k' ∈ ((k, v) :: r).*1)) as [Hin|Hout].
    - simpl. destruct (decide (k' = k)) as [->|Hne]; [done|].
      rewrite assoc_without, decide_False by done.
      simpl. by rewrite decide_True.
    - assert (k' ≠ k) as Hne.
      { intros ->. apply Hout. simpl. left. }
      cbn [assoc fst]. rewrite !(decide_False (P := k' = k)) by done.
      destruct (decide (length ((k, v) :: r) = m_capacity s1)) as [Hfull|_];
        [|simpl; by rewrite decide_True].
      destruct r as [|e r]; [simpl in Hfull; lia|].
      simpl. by rewrite decide_True. }
  pose proof (LRU_get_refines s2 k Hwf2) as Href. rewrite Hassoc in Href.
  destruct Href as (s3 & Hget & _). by exists s3.
Qed.

(** X7.  [FILOCache::put] never evicts or moves a key other than the one
    at the tail of the list: the keys before the tail are, in the same
    order, the first keys of the list after the call. *)
Theorem FILO_put_keeps_all_but_tail s k v :
  seq_wf s →
  ∃ s', FILOCache.put k v s = Some s'
        ∧ (removelast (seq_entries s)).*1 `prefix_of` (seq_entries s').*1.
Proof.
  intros Hwf.
  destruct (FILO_put_refines s k v Hwf) as (s' & Hput & _ & _ & Hes).
  exists s'. split; [done|]. rewrite Hes. unfold FILO_put_entries.
  destruct (seq_entries s) as [|e es _] using rev_ind.
  { apply prefix_nil. }
  rewrite !removelast_last.
  destruct (decide (m_capacity s = 0%nat)).
  { rewrite fmap_app. by apply prefix_app_r. }
  destruct (decide (k ∈ (es ++ [e]).*1)).
  { rewrite replace_value_keys, fmap_app. by apply prefix_app_r. }
  destruct (decide (length (es ++ [e]) = m_capacity s)).
  - rewrite fmap_app. by apply prefix_app_r.
  - rewrite !fmap_app, <- app_assoc. by apply prefix_app_r.
Qed.

(** X12.  After any sequence of calls since its construction, a FILO, FIFO
    or LRU cache has one list node per stored key: the keys of the list are
    distinct, their number is the size of the index map, and an entry is in
    the list exactly when its value is what the index map gives for its
    key. *)
Theorem one_list_index_agrees (p : policy) (capacity : nat) (xs : list call)
    os c s :
  run xs (construct p capacity) = Some (os, c) →
  c = FILO s ∨ c = FIFO s ∨ c = LRU s →
  NoDup (seq_entries s).*1
  ∧ NoDup (m_list s)
  ∧ length (seq_entries s) = seq_size s
  ∧ length (m_list s) = seq_size s
  ∧ ∀ k v, (k, v) ∈ seq_entries s ↔ stored_value k c = Some v.
Proof.
  intros Hrun Hc.
  pose proof (cache_wf_run xs _ os c (cache_wf_construct p capacity) Hrun)
    as Hwf.
  assert (seq_wf s ∧ ∀ k, stored_value k c
                          = a ← m_hashmap s !! k; snd <$> m_nodes s !! a)
    as [Hs Hval] by (by destruct Hc as [->|[->| ->]]).
  split; [by apply seq_keys_NoDup|]. split; [apply Hs|].
  split; [by apply seq_wf_entries_length|].
  split; [symmetry; by apply seq_wf_size|].
  intros k v. rewrite Hval, <- seq_assoc by done. split.
  - intros Hin. destruct (assoc k (seq_entries s)) as [v'|] eqn:Hassoc.
    + apply assoc_Some in Hassoc.
      apply (seq_entries_elem s _ Hs) in Hin as (a & Ha & Hv).
      apply (seq_entries_elem s _ Hs) in Hassoc as (a' & Ha' & Hv').
      simpl in *. congruence.
    + apply assoc_None in Hassoc. exfalso. apply Hassoc.
      apply list_elem_of_fmap. by exists (k, v).
  - apply assoc_Some.
Qed.

End more_seq.

(** ** More on the LFU cache *)

Section more_lfu_claims.
Context {K V : Type} `{Countable K}.
Implicit Types (s : LFUCache.t K V) (k : K) (v : V).

Lemma stored_node_inv s k nd :
  LFU_wf_struct s → stored_node k s = Some nd →
  ∃ a, LFUCache.m_hashmap s !! k = Some a
       ∧ LFUCache.m_nodes s !! a = Some nd
       ∧ LFUCache.m_key nd = k
       ∧ a ∈ LFUCache.bucket (LFUCache.m_freq nd) (LFUCache.m_freqHashmap s)
       ∧ 1 ≤ LFUCache.m_freq nd ≤ INT_MAX.
Proof.
  intros Hwf. unfold stored_node.
  destruct (LFUCache.m_hashmap s !! k) as [a|] eqn:Hk; [|done]. simpl.
  intros Hnd. destruct (LFU_wf_node s k a Hwf Hk) as (n & Hn & ? & ? & ?).
  assert (n = nd) as -> by congruence. by exists a.
Qed.

(** X8.  [put] of a new key into a full LFU cache evicts the key at the
    back of the bucket of [m_minimalFreq]: no stored key has a smaller
    access counter than the evicted one.  Every other key keeps its value
    and its counter, and the new key is stored with counter 1. *)
Theorem LFU_evicts_least_frequent s k v :
  LFU_wf s → LFUCache.m_capacity s ≠ 0%nat →
  LFUCache.m_hashmap s !! k = None →
  LFUCache.size s = LFUCache.m_capacity s →
  ∃ k0 nd0 s',
    LFU_victim s = Some k0
    ∧ stored_node k0 s = Some nd0
    ∧ (∀ k' nd, stored_node k' s = Some nd →
                LFUCache.m_freq nd0 ≤ LFUCache.m_freq nd)
    ∧ LFUCache.put k v s = Some s'
    ∧ ∀ k', stored_node k' s'
            = if decide (k' = k) then Some (LFUCache.mkNode k v 1)
              else if decide (k' = k0) then None
              else stored_node k' s.
Proof.
  intros Hwf Hcap Hk Hfull.
  destruct (proj2 (LFU_put_new_state s k v Hwf Hcap Hk) Hfull)
    as (a0 & n0 & Hlast & Hn0 & Hf0 & Hk0 & Hwf1 & Hput).
  exists (LFUCache.m_key n0), n0. eexists. split; [|split; [|split; [|split]]].
  - unfold LFU_victim, StdList.back, StdList.deref. rewrite Hlast. simpl.
    by rewrite Hn0.
  - unfold stored_node. rewrite Hk0. simpl. done.
  - intros k' nd Hnd.
    destruct (stored_node_inv s k' nd (proj1 Hwf) Hnd) as (b & _ & Hb & _ & Hin & _).
    apply bucket_elem_Some in Hin.
    destruct (proj2 Hwf) as [_ Hle]; [by intros Hnil; rewrite Hnil in Hb|].
    rewrite Hf0. by apply (Hle _ _ Hin).
  - done.
  - intros k'. rewrite stored_node_inserted by
      (done || (simpl; by apply lookup_delete_None; right)).
    case_decide; [done|].
    by apply stored_node_evicted; [apply Hwf|].
Qed.

(** X9.  [get] and [put] on a key stored in an LFU cache raise the access
    counter of that key by exactly one ([put] also stores the new value),
    leave the value and the counter of every other key as they are, and
    put the node of the key at the front of the bucket of its new
    counter. *)
Theorem LFU_access_counts_once s k nd :
  LFU_wf s → stored_node k s = Some nd → LFUCache.m_freq nd < INT_MAX →
  (∃ s1,
     LFUCache.get k s = Return (LFUCache.m_value nd) s1
     ∧ stored_node k s1
       = Some (LFUCache.mkNode k (LFUCache.m_value nd) (LFUCache.m_freq nd + 1))
     ∧ (∀ k', k' ≠ k → stored_node k' s1 = stored_node k' s)
     ∧ StdList.begin (LFUCache.bucket (LFUCache.m_freq nd + 1)
                        (LFUCache.m_freqHashmap s1))
       = LFUCache.m_hashmap s1 !! k)
  ∧ (∀ v, LFUCache.m_capacity s ≠ 0%nat →
     ∃ s2,
       LFUCache.put k v s = Some s2
       ∧ stored_node k s2 = Some (LFUCache.mkNode k v (LFUCache.m_freq nd + 1))
       ∧ (∀ k', k' ≠ k → stored_node k' s2 = stored_node k' s)
       ∧ StdList.begin (LFUCache.bucket (LFUCache.m_freq nd + 1)
                          (LFUCache.m_freqHashmap s2))
         = LFUCache.m_hashmap s2 !! k).
Proof.
  intros Hwf Hnd Hlt.
  destruct (stored_node_inv s k nd (proj1 Hwf) Hnd) as (a & Hk & Ha & _).
  assert (∀ v,
    stored_node k (promote k v a (LFUCache.m_freq nd) s)
    = Some (LFUCache.mkNode k v (LFUCache.m_freq nd + 1))
    ∧ (∀ k', k' ≠ k →
         stored_node k' (promote k v a (LFUCache.m_freq nd) s)
         = stored_node k' s)
    ∧ StdList.begin
        (LFUCache.bucket (LFUCache.m_freq nd + 1)
           (LFUCache.m_freqHashmap (promote k v a (LFUCache.m_freq nd) s)))
      = LFUCache.m_hashmap (promote k v a (LFUCache.m_freq nd) s) !! k)
    as Hpromote.
  { intros v. split; [|split].
    - rewrite (stored_node_promote s k v a nd) by (done || apply Hwf).
      by rewrite decide_True.
    - intros k' Hne.
      rewrite (stored_node_promote s k v a nd) by (done || apply Hwf).
      by rewrite decide_False.
    - unfold promote, link. simpl.
      by rewrite bucket_insert_eq, lookup_insert_eq. }
  split.
  - eexists. split; [by apply (LFU_get_stored s k a nd (proj1 Hwf))|].
    apply Hpromote.
  - intros v Hcap. eexists.
    split; [by apply (LFU_put_stored s k v a nd (proj1 Hwf))|].
    apply Hpromote.
Qed.

(** X10.  The access counter is an [int]: on a key whose counter is
    [INT_MAX], [get], and [put] when the capacity is not 0, increment it
    past [INT_MAX], which has no defined result. *)
Theorem LFU_counter_overflow s k v nd :
  LFU_wf s → stored_node k s = Some nd → LFUCache.m_freq nd = INT_MAX →
  LFUCache.get k s = Undefined
  ∧ (LFUCache.m_capacity s ≠ 0%nat → LFUCache.put k v s = None).
Proof.
  intros Hwf Hnd Hmax.
  destruct (stored_node_inv s k nd (proj1 Hwf) Hnd) as (a & Hk & Ha & _).
  split.
  - apply (LFU_get_overflow s k a nd); [apply Hwf|done..|lia].
  - intros Hcap. apply (LFU_put_overflow s k v a nd); [apply Hwf|done..|lia].
Qed.

(** X11.  After any sequence of calls since its construction, the buckets
    of an LFU cache agree with the counters: the node of a stored key
    holds that key and a counter of at least 1 and is in the bucket of its
    counter; a node in the bucket of [f] has counter [f] and is the node
    of the key it holds; no bucket lists a node twice; and there is one
    node per stored key. *)
Theorem LFU_buckets_agree_with_counters (capacity : nat) (xs : list call)
    os s :
  run xs (LFU (LFUCache.new capacity)) = Some (os, LFU s) →
  (∀ k nd, stored_node k s = Some nd →
           LFUCache.m_key nd = k ∧ 1 ≤ LFUCache.m_freq nd
           ∧ ∃ a, LFUCache.m_hashmap s !! k = Some a
                  ∧ a ∈ LFUCache.bucket (LFUCache.m_freq nd)
                          (LFUCache.m_freqHashmap s))
  ∧ (∀ f a, a ∈ LFUCache.bucket f (LFUCache.m_freqHashmap s) →
            ∃ nd, LFUCache.m_nodes s !! a = Some nd
                  ∧ LFUCache.m_freq nd = f
                  ∧ LFUCache.m_hashmap s !! LFUCache.m_key nd = Some a)
  ∧ (∀ f, NoDup (LFUCache.bucket f (LFUCache.m_freqHashmap s)))
  ∧ LFUCache.size s = size (LFUCache.m_nodes s).
Proof.
  intros Hrun.
  pose proof (cache_wf_run xs (LFU (LFUCache.new capacity)) os (LFU s)
                (LFU_wf_new capacity) Hrun) as [Hwf _].
  split; [|split; [|split]].
  - intros k nd Hnd.
    destruct (stored_node_inv s k nd Hwf Hnd) as (a & ? & ? & ? & ? & ?).
    split; [done|]. split; [lia|]. by exists a.
  - intros f a Hin.
    destruct (bucketed_bucket_live _ _ f a (proj2 Hwf) Hin) as (nd & Hnd & Hf).
    exists nd. split; [done|]. split; [done|].
    by apply (proj2 (proj1 Hwf) a nd).
  - intros f. by eapply bucketed_bucket_NoDup, Hwf.
  - by apply LFU_wf_size.
Qed.

End more_lfu_claims.

(** ** The further properties at given caches *)

Section more_scenarios.

Ltac evaluated := refine (bool_decide_unpack _ _); vm_compute; exact I.

Lemma size_stays_within_capacity_witness :
  let c : cache Z Z := construct PLFU 2 in
  let xs : list call := [Put 1 1; Put 2 2; Get 1; Put 3 3; Clear; Put 4 4] in
  let c' := after xs c in
  cache_wf c ∧ (cache_size c ≤ getCapacity c)%nat
  ∧ Forall (λ x, is_setCapacity x = false) xs
  ∧ run xs c = Some ([Done; Done; Value 1; Done; Done; Done], c')
  ∧ getCapacity c' = getCapacity c ∧ (cache_size c' ≤ getCapacity c')%nat.
Proof.
  intros c xs c'.
  assert (cache_wf c) as Hwf by evaluated.
  assert (cache_size c ≤ getCapacity c)%nat as Hle by (vm_compute; lia).
  assert (Forall (λ x, is_setCapacity x = false) xs) as Hxs
    by (repeat constructor).
  assert (run xs c = Some ([Done; Done; Value 1; Done; Done; Done], c'))
    as Hrun by (by vm_compute).
  do 4 (split; [done|]).
  exact (size_stays_within_capacity c xs _ c' Hwf Hle Hxs Hrun).
Defined.

Lemma one_list_caches_never_undefined_witness :
  let xs : list call := [Put 1 1; SetCapacity 0; Put 2 2; Get 1; Clear] in
  PLRU ≠ PLFU
  ∧ ∃ os c, run xs (construct (K := Z) (V := Z) PLRU 1) = Some (os, c)
            ∧ policy_of c = PLRU ∧ cache_wf c.
Proof.
  intros xs. assert (PLRU ≠ PLFU) as Hp by done. split; [done|].
  exact (one_list_caches_never_undefined PLRU 1 xs Hp).
Defined.

Lemma get_keeps_contents_witness :
  let c := after [Put 1 1; Put 2 2] (construct PLRU 2) in
  let c' := after [Put 1 1; Put 2 2; Get 1] (construct PLRU 2) in
  cache_wf c ∧ get 1 c = Return 1 c'
  ∧ stored_value 1 c = Some 1
  ∧ getCapacity c' = getCapacity c
  ∧ cache_size c' = cache_size c
  ∧ (∀ k', stored_value k' c' = stored_value k' c)
  ∧ (policy_of c = PFILO ∨ policy_of c = PFIFO → c' = c).
Proof.
  intros c c'.
  assert (cache_wf c) as Hwf by evaluated.
  assert (get 1 c = Return 1 c') as Hget by (by vm_compute).
  do 2 (split; [done|]).
  exact (get_keeps_contents c 1 1 c' Hwf Hget).
Defined.

Lemma put_keeps_other_keys_witness :
  let c := after [Put 1 1; Put 2 2; Get 1] (construct PLFU 2) in
  cache_wf c ∧ counter_room 1 3 c
  ∧ getCapacity c ≠ 0%nat ∧ cache_size c = getCapacity c
  ∧ cache_index c !! 3 = None
  ∧ ∃ c', put 3 3 c = Some c'
          ∧ getCapacity c' = getCapacity c
          ∧ cache_size c' = put_size 3 c
          ∧ stored_value 3 c' = Some 3
          ∧ (∀ k', k' ≠ 3 →
               stored_value k' c' = stored_value k' c
               ∨ (stored_value k' c' = None
                  ∧ getCapacity c ≠ 0%nat ∧ cache_size c = getCapacity c
                  ∧ cache_index c !! 3 = None))
          ∧ ∃ k0, k0 ≠ 3 ∧ is_Some (stored_value k0 c)
                  ∧ stored_value k0 c' = None
                  ∧ ∀ k', k' ≠ 3 → k' ≠ k0 →
                      stored_value k' c' = stored_value k' c.
Proof.
  intros c.
  assert (cache_wf c) as Hwf by evaluated.
  assert (counter_room 1 3 c) as Hroom by evaluated.
  assert (getCapacity c ≠ 0%nat) as Hcap by (by vm_compute).
  assert (cache_size c = getCapacity c) as Hfull by (by vm_compute).
  assert (cache_index c !! 3 = None) as Hnew by (by vm_compute).
  do 5 (split; [done|]).
  destruct (put_keeps_other_keys c 3 3 Hwf Hroom)
    as (c' & Hput & Hc & Hsize & _ & Hv & Hother & Hevict).
  exists c'. do 3 (split; [done|]). split; [exact (Hv Hcap)|].
  split; [exact Hother|]. exact (Hevict Hcap Hfull Hnew).
Defined.

Lemma LRU_most_recent_survives_witness :
  let s := LRU_after [Put 1 1; Put 2 2] 2 in
  let s1 := LRU_after [Put 1 1; Put 2 2; Get 1] 2 in
  seq_wf s ∧ (2 ≤ m_capacity s)%nat
  ∧ (LRUCache.get 1 s = Return 1 s1 ∨ LRUCache.put 1 1 s = Some s1)
  ∧ ∃ s2 s3,
      LRUCache.put 3 3 s1 = Some s2
      ∧ LRUCache.get 1 s2 = Return (if decide (3 = 1) then 3 else 1) s3.
Proof.
  intros s s1.
  assert (seq_wf s) as Hwf by evaluated.
  assert (2 ≤ m_capacity s)%nat as Hcap by (vm_compute; lia).
  assert (LRUCache.get 1 s = Return 1 s1 ∨ LRUCache.put 1 1 s = Some s1)
    as Hacc by (left; by vm_compute).
  do 3 (split; [done|]).
  exact (LRU_most_recent_survives s s1 1 1 3 3 Hwf Hcap Hacc).
Defined.

Lemma FILO_put_keeps_all_but_tail_witness :
  let s := FILO_after [Put 1 1; Put 2 2; Put 3 3] 3 in
  seq_wf s
  ∧ ∃ s', FILOCache.put 4 4 s = Some s'
          ∧ (removelast (seq_entries s)).*1 `prefix_of` (seq_entries s').*1.
Proof.
  intros s. assert (seq_wf s) as Hwf by evaluated. split; [done|].
  exact (FILO_put_keeps_all_but_tail s 4 4 Hwf).
Defined.

Lemma LFU_evicts_least_frequent_witness :
  let s := LFU_after [Put 1 1; Put 2 2; Get 1; Put 3 3; Get 3] 2 in
  LFU_wf s ∧ LFUCache.m_capacity s ≠ 0%nat
  ∧ LFUCache.m_hashmap s !! 4 = None
  ∧ LFUCache.size s = LFUCache.m_capacity s
  ∧ ∃ k0 nd0 s',
      LFU_victim s = Some k0
      ∧ stored_node k0 s = Some nd0
      ∧ (∀ k' nd, stored_node k' s = Some nd →
                  LFUCache.m_freq nd0 ≤ LFUCache.m_freq nd)
      ∧ LFUCache.put 4 4 s = Some s'
      ∧ ∀ k', stored_node k' s'
              = if decide (k' = 4) then Some (LFUCache.mkNode 4 4 1)
                else if decide (k' = k0) then None
                else stored_node k' s.
Proof.
  intros s.
  assert (LFU_wf s) as Hwf by evaluated.
  assert (LFUCache.m_capacity s ≠ 0%nat) as Hcap by (by vm_compute).
  assert (LFUCache.m_hashmap s !! 4 = None) as Hk by (by vm_compute).
  assert (LFUCache.size s = LFUCache.m_capacity s) as Hfull by (by vm_compute).
  do 4 (split; [done|]).
  exact (LFU_evicts_least_frequent s 4 4 Hwf Hcap Hk Hfull).
Defined.

Lemma LFU_access_counts_once_witness :
  let s := LFU_after [Put 1 1; Put 2 2; Get 1] 2 in
  let nd := LFUCache.mkNode 1 1 2 in
  LFU_wf s ∧ stored_node 1 s = Some nd ∧ LFUCache.m_freq nd < INT_MAX
  ∧ (∃ s1,
       LFUCache.get 1 s = Return (LFUCache.m_value nd) s1
       ∧ stored_node 1 s1
         = Some (LFUCache.mkNode 1 (LFUCache.m_value nd) (LFUCache.m_freq nd + 1))
       ∧ (∀ k', k' ≠ 1 → stored_node k' s1 = stored_node k' s)
       ∧ StdList.begin (LFUCache.bucket (LFUCache.m_freq nd + 1)
                          (LFUCache.m_freqHashmap s1))
         = LFUCache.m_hashmap s1 !! 1)
  ∧ (LFUCache.m_capacity s ≠ 0%nat →
     ∃ s2,
       LFUCache.put 1 5 s = Some s2
       ∧ stored_node 1 s2 = Some (LFUCache.mkNode 1 5 (LFUCache.m_freq nd + 1))
       ∧ (∀ k', k' ≠ 1 → stored_node k' s2 = stored_node k' s)
       ∧ StdList.begin (LFUCache.bucket (LFUCache.m_freq nd + 1)
                          (LFUCache.m_freqHashmap s2))
         = LFUCache.m_hashmap s2 !! 1).
Proof.
  intros s nd.
  assert (LFU_wf s) as Hwf by evaluated.
  assert (stored_node 1 s = Some nd) as Hnd by (by vm_compute).
  assert (LFUCache.m_freq nd < INT_MAX) as Hlt by (by vm_compute).
  do 3 (split; [done|]).
  destruct (LFU_access_counts_once s 1 nd Hwf Hnd Hlt) as [Hget Hput].
  split; [done|]. exact (Hput 5).
Defined.

Lemma LFU_counter_overflow_witness :
  let nd := LFUCache.mkNode 7 0 INT_MAX in
  LFU_wf LFU_saturated ∧ stored_node 7 LFU_saturated = Some nd
  ∧ LFUCache.m_freq nd = INT_MAX
  ∧ LFUCache.m_capacity LFU_saturated ≠ 0%nat
  ∧ LFUCache.get 7 LFU_saturated = Undefined
  ∧ LFUCache.put 7 1 LFU_saturated = None.
Proof.
  intros nd.
  assert (LFU_wf LFU_saturated) as Hwf by evaluated.
  assert (stored_node 7 LFU_saturated = Some nd) as Hnd by (by vm_compute).
  assert (LFUCache.m_freq nd = INT_MAX) as Hmax by done.
  assert (LFUCache.m_capacity LFU_saturated ≠ 0%nat) as Hcap by (by vm_compute).
  do 4 (split; [done|]).
  destruct (LFU_counter_overflow LFU_saturated 7 1 nd Hwf Hnd Hmax)
    as [Hget Hput].
  split; [done|]. by apply Hput.
Defined.

Lemma LFU_buckets_agree_with_counters_witness :
  let xs : list call := [Put 1 1; Put 2 2; Get 1; Put 3 3; Get 3] in
  let s := LFU_after xs 2 in
  run xs (LFU (LFUCache.new 2))
  = Some ([Done; Done; Value 1; Done; Value 3], LFU s)
  ∧ (∀ k nd, stored_node k s = Some nd →
             LFUCache.m_key nd = k ∧ 1 ≤ LFUCache.m_freq nd
             ∧ ∃ a, LFUCache.m_hashmap s !! k = Some a
                    ∧ a ∈ LFUCache.bucket (LFUCache.m_freq nd)
                            (LFUCache.m_freqHashmap s))
  ∧ (∀ f a, a ∈ LFUCache.bucket f (LFUCache.m_freqHashmap s) →
            ∃ nd, LFUCache.m_nodes s !! a = Some nd
                  ∧ LFUCache.m_freq nd = f
                  ∧ LFUCache.m_hashmap s !! LFUCache.m_key nd = Some a)
  ∧ (∀ f, NoDup (LFUCache.bucket f (LFUCache.m_freqHashmap s)))
  ∧ LFUCache.size s = size (LFUCache.m_nodes s).
Proof.
  intros xs s.
  assert (run xs (LFU (LFUCache.new 2))
          = Some ([Done; Done; Value 1; Done; Value 3], LFU s)) as Hrun
    by (by vm_compute).
  split; [done|].
  exact (LFU_buckets_agree_with_counters 2 xs _ s Hrun).
Defined.

Lemma one_list_index_agrees_witness :
  let xs : list call := [Put 1 1; Put 2 2; Get 1; Put 3 3] in
  let s := LRU_after xs 2 in
  run xs (construct PLRU 2) = Some ([Done; Done; Value 1; Done], LRU s)
  ∧ (LRU s = FILO s ∨ LRU s = FIFO s ∨ LRU s = LRU s)
  ∧ NoDup (seq_entries s).*1
  ∧ NoDup (m_list s)
  ∧ length (seq_entries s) = seq_size s
  ∧ length (m_list s) = seq_size s
  ∧ ∀ k v, (k, v) ∈ seq_entries s ↔ stored_value k (LRU s) = Some v.
Proof.
  intros xs s.
  assert (run xs (construct PLRU 2) = Some ([Done; Done; Value 1; Done], LRU s))
    as Hrun by (by vm_compute).
  assert (LRU s = FILO s ∨ LRU s = FIFO s ∨ LRU s = LRU s) as Hc
    by (right; right; reflexivity).
  do 2 (split; [done|]).
  exact (one_list_index_agrees PLRU 2 xs _ (LRU s) s Hrun Hc).
Defined.

Lemma put_after_setCapacity_zero_is_ignored_witness :
  let c := after [Put 1 1; Put 2 2] (construct PFIFO 2) in
  cache_wf c ∧ stored_value 1 c = Some 1 ∧ counter_room 1 1 c
  ∧ put 1 9 (setCapacity 0 c) = Some (setCapacity 0 c)
  ∧ ∃ c', get 1 (setCapacity 0 c) = Return 1 c'.
Proof.
  intros c.
  assert (cache_wf c) as Hwf by evaluated.
  assert (stored_value 1 c = Some 1) as Hv by (by vm_compute).
  assert (counter_room 1 1 c) as Hroom by evaluated.
  do 3 (split; [done|]).
  exact (put_after_setCapacity_zero_is_ignored c 1 9 1 Hwf Hv Hroom).
Defined.

End more_scenarios.
